(** * DSP_tutorials: the FM receive chain of RTL_ingest.ipynb and read_iq

    A shallow embedding of the notebook's signal-processing cells
    (heterodyne mixing, windowed-sinc low-pass design, convolution,
    decimation, polar-discriminator demodulation, manual phase wrapping)
    and of the [read_iq] helper.

    Arrays are lists.  Python and NumPy operations that can raise are
    functions into [result]; slices follow Python's clamping rules.

    Numbers: the stages are written once over an abstract sample type and
    instantiated three times.  In [Ideal] a float64 is a real number and
    complex128 a pair of reals, [np.pi] is [PI]; rounding, signed zeros,
    infinities and NaN are outside that model.  In [Signed] a float64 is
    a real number that, when it is zero, carries the sign IEEE-754 gives
    that zero: arithmetic is still exact, and [np.angle] sees the sign of
    a zero as NumPy does.  In [Binary64] the samples are pairs of
    IEEE-754 binary64 values (the kernel's primitive floats). *)

From Stdlib Require Import List ZArith Lia Bool Arith.
From Stdlib Require Import Reals Lra Psatz.
From Stdlib Require Import QArith Qround.
From Stdlib Require Import PrimFloat FloatClass.
From Stdlib Require Strings.Byte.
Import ListNotations.

Set Implicit Arguments.

(** ** Python exceptions and fallible results *)

Inductive exn : Set :=
| ValueError
| ZeroDivisionError
| IndexError
| OSError.

Inductive result (A : Type) : Type :=
| Ok (a : A)
| Raise (e : exn).

Arguments Ok {A} a.
Arguments Raise {A} e.

Definition bind {A B : Type} (r : result A) (k : A -> result B) : result B :=
  match r with
  | Ok a => k a
  | Raise e => Raise e
  end.

Notation "x <- r ;; k" := (bind r (fun x => k))
  (at level 61, r at next level, right associativity).

Definition raises {A : Type} (r : result A) : bool :=
  match r with
  | Ok _ => false
  | Raise _ => true
  end.

(** ** Python slices and NumPy elementwise operations on 1-d arrays *)

Section Arrays.
Context {A : Type}.

(** [slice.indices] for a positive step: a negative bound counts from the
    end, and every bound is clamped to [0, len]. *)
Definition clamp_index (len : nat) (k : Z) : nat :=
  if (k <? 0)%Z then Z.to_nat (Z.max 0 (Z.of_nat len + k))
  else Nat.min len (Z.to_nat k).

(** [a[start:]] *)
Definition slice_from (a : list A) (start : Z) : list A :=
  skipn (clamp_index (length a) start) a.

(** [a[:stop]] *)
Definition slice_to (a : list A) (stop : Z) : list A :=
  firstn (clamp_index (length a) stop) a.

(** Walk [a], keeping an element each time the countdown [k] is at 0 and
    then skipping [r - 1] elements. *)
Fixpoint take_every (r k : nat) (a : list A) : list A :=
  match a with
  | [] => []
  | x :: t =>
      match k with
      | O => x :: take_every r (r - 1) t
      | S k' => take_every r k' t
      end
  end.

(** [a[::r]]: a zero step is a ValueError, a negative step walks from the
    last element downwards. *)
Definition slice_step (a : list A) (r : Z) : result (list A) :=
  if (r =? 0)%Z then Raise ValueError
  else if (0 <? r)%Z then Ok (take_every (Z.to_nat r) 0 a)
  else Ok (take_every (Z.to_nat (- r)) 0 (rev a)).

End Arrays.

Section Elementwise.
Context {A B C : Type}.
Variable f : A -> B -> C.

Fixpoint map2 (a : list A) (b : list B) : list C :=
  match a, b with
  | x :: a', y :: b' => f x y :: map2 a' b'
  | _, _ => []
  end.

(** A binary ufunc on two 1-d arrays: equal shapes pair up, a length-1
    operand is broadcast, any other pair of shapes is a ValueError. *)
Definition broadcast (a : list A) (b : list B) : result (list C) :=
  if Nat.eqb (length a) (length b) then Ok (map2 a b)
  else match a, b with
       | [x], _ => Ok (map (f x) b)
       | _, [y] => Ok (map (fun x => f x y) a)
       | _, _ => Raise ValueError
       end.

End Elementwise.

(** [g] applied to every element and the one after it: what a ufunc of
    [a[1:]] and [a[:-1]] computes, written pair by pair. *)
Fixpoint pairwise {A B : Type} (g : A -> A -> B) (a : list A) : list B :=
  match a with
  | x :: (y :: _) as t => g x y :: pairwise g t
  | _ => []
  end.

(** ** The stages that do not depend on the number representation *)

(** What the demodulation cell needs from the sample type [C] and the
    angle type [F]: complex multiplication, conjugation, [np.angle]. *)
Class SampleOps (C F : Type) : Type := {
  c_mul : C -> C -> C;
  c_conj : C -> C;
  c_angle : C -> F
}.

Section Stages.
Context {C F : Type} `{SampleOps C F}.

(** [[
    rotated = downsampled[1:] * np.conj(downsampled[:len(downsampled)-1])
    deltas = np.angle(rotated)
    ]] *)
Definition demodulate (downsampled : list C) : result (list F) :=
  rotated <- broadcast c_mul
               (slice_from downsampled 1)
               (map c_conj
                  (slice_to downsampled (Z.of_nat (length downsampled) - 1))) ;;
  Ok (map c_angle rotated).

(** The discriminator of one pair: the later sample times the conjugate
    of the earlier one. *)
Definition pair_angle (earlier later : C) : F :=
  c_angle (c_mul later (c_conj earlier)).

(** [[
    r = 10
    if len(filtered)%r > 0:
        filtered = filtered[:-(len(filtered)%r)]
    downsampled = filtered[::r]
    ]]
    [%] on a zero divisor raises ZeroDivisionError; for a negative [r] the
    remainder is never positive. *)
Definition truncate_to_multiple (filtered : list C) (r : Z) : result (list C) :=
  if (r =? 0)%Z then Raise ZeroDivisionError
  else
    let m := (Z.of_nat (length filtered) mod r)%Z in
    if (0 <? m)%Z then Ok (slice_to filtered (- m)) else Ok filtered.

Definition decimate (filtered : list C) (r : Z) : result (list C) :=
  truncated <- truncate_to_multiple filtered r ;;
  slice_step truncated r.

End Stages.

(** ** Exact arithmetic: float64 as [R], complex128 as a pair of reals *)

Module Ideal.

Local Open Scope R_scope.

Record complex : Type := mkC { real : R; imag : R }.

Definition C0 : complex := mkC 0 0.

(** A Python float or int meeting a complex operand is promoted first. *)
Definition of_real (x : R) : complex := mkC x 0.

(** [1j] *)
Definition j : complex := mkC 0 1.

Definition Cadd (a b : complex) : complex :=
  mkC (real a + real b) (imag a + imag b).

Definition Cmul (a b : complex) : complex :=
  mkC (real a * real b - imag a * imag b) (real a * imag b + imag a * real b).

(** [np.conj] *)
Definition Cconj (a : complex) : complex := mkC (real a) (- imag a).

(** [np.exp] at a complex argument. *)
Definition Cexp (a : complex) : complex :=
  mkC (exp (real a) * cos (imag a)) (exp (real a) * sin (imag a)).

(** [np.arctan2(y, x)], the four-quadrant arctangent; both arguments zero
    gives 0. *)
Definition arctan2 (y x : R) : R :=
  if Rlt_dec 0 x then atan (y / x)
  else if Rlt_dec x 0 then
    if Rle_dec 0 y then atan (y / x) + PI else atan (y / x) - PI
  else if Rlt_dec 0 y then PI / 2
  else if Rlt_dec y 0 then - (PI / 2)
  else 0.

(** [np.angle(z)] is [arctan2(z.imag, z.real)]. *)
Definition np_angle (z : complex) : R := arctan2 (imag z) (real z).

#[export] Instance ideal_ops : SampleOps complex R := {
  c_mul := Cmul;
  c_conj := Cconj;
  c_angle := np_angle
}.

(** *** Mixer cell
    [[
    t = np.arange(0,len(samples))/sdr.sample_rate
    mixing_signal = np.exp(1j*2*np.pi*f2*t)
    shifted = samples * mixing_signal
    ]] *)
Definition time_steps (n : nat) (sample_rate : R) : list R :=
  map (fun i => INR i / sample_rate) (seq 0 n).

Definition mixing_signal (n : nat) (sample_rate f2 : R) : list complex :=
  map (fun ti =>
         Cexp (Cmul (Cmul (Cmul (Cmul j (of_real 2)) (of_real PI)) (of_real f2))
                    (of_real ti)))
      (time_steps n sample_rate).

(** The division by the sample rate is NumPy's, which warns on a zero
    divisor and does not raise; only the final product can fail, on
    operands that do not broadcast. *)
Definition mix (samples : list complex) (sample_rate f2 : R) : result (list complex) :=
  broadcast Cmul samples (mixing_signal (length samples) sample_rate f2).

(** *** Low-pass filter cell *)

(** [N = int(np.ceil(4/.02)); if N % 2: N += 1] *)
Definition taps : nat :=
  let N := Qceiling (4 / (2 # 100))%Q in
  Z.to_nat (if (N mod 2 =? 0)%Z then N else N + 1)%Z.

(** [np.blackman(M)]: empty below one point, a single one at one point,
    else [0.42 - 0.5 cos(2 pi n/(M-1)) + 0.08 cos(4 pi n/(M-1))]. *)
Definition np_blackman (M : nat) : list R :=
  match M with
  | O => []
  | S O => [1]
  | _ =>
      map (fun n =>
             42 / 100 - 5 / 10 * cos (2 * PI * INR n / (INR M - 1))
             + 8 / 100 * cos (4 * PI * INR n / (INR M - 1)))
          (seq 0 M)
  end.

(** [np.sinc(x)] is [sin(pi x)/(pi x)], and 1 at 0 (NumPy evaluates the
    quotient at 1e-20 in place of 0, which in float64 is exactly 1). *)
Definition np_sinc (x : R) : R :=
  if Req_dec_T x 0 then 1 else sin (PI * x) / (PI * x).

(** [[
    frac = cutoff/sdr.sample_rate
    w = np.blackman(N)
    sinc = np.sinc(2 * frac * (np.arange(N) - (N-1)/2))
    h = sinc * w
    ]]
    The first line divides two Python floats, which raises on a zero
    divisor; nothing in the cell inspects [cutoff]. *)
Definition design_lowpass (cutoff sample_rate : R) : result (list R) :=
  if Req_dec_T sample_rate 0 then Raise ZeroDivisionError
  else
    let frac := cutoff / sample_rate in
    let N := taps in
    let w := np_blackman N in
    let sinc :=
      map (fun n => np_sinc (2 * frac * (INR n - (INR N - 1) / 2))) (seq 0 N) in
    broadcast Rmult sinc w.

(** *** [np.convolve(a, v)], default mode 'full' *)

Definition Csum (l : list complex) : complex := fold_right Cadd C0 l.

(** The term [a[m] * v[n - m]] of output [n]; it is absent where [n - m]
    falls outside [v]. *)
Definition conv_term (a v : list complex) (n m : nat) : complex :=
  if (m <=? n)%nat && (n - m <? length v)%nat
  then Cmul (nth m a C0) (nth (n - m) v C0)
  else C0.

Definition conv_at (a v : list complex) (n : nat) : complex :=
  Csum (map (conv_term a v n) (seq 0 (length a))).

(** Either operand empty is a ValueError; otherwise every overlap of the
    two sequences contributes one output. *)
Definition np_convolve (a v : list complex) : result (list complex) :=
  match a, v with
  | [], _ | _, [] => Raise ValueError
  | _, _ => Ok (map (conv_at a v) (seq 0 (length a + length v - 1)))
  end.

(** [filtered = np.convolve(shifted, h)]: the real kernel is promoted. *)
Definition apply_filter (shifted : list complex) (h : list R) : result (list complex) :=
  np_convolve shifted (map of_real h).

(** *** The naive path: per-sample angles, differences, manual wrapping *)

(** [np.diff(a)] is [a[1:] - a[:-1]]. *)
Definition np_diff (a : list R) : result (list R) :=
  broadcast Rminus (slice_from a 1) (slice_to a (-1)).

(** [[
    angles = np.angle(downsampled)
    diffs = np.diff(angles)
    ]] *)
Definition naive_diffs (downsampled : list complex) : result (list R) :=
  np_diff (map np_angle downsampled).

(** [arr[i] = v] for [0 <= i]; an index outside the array is an
    IndexError. *)
Fixpoint set_item (arr : list R) (i : nat) (v : R) : result (list R) :=
  match arr, i with
  | [], _ => Raise IndexError
  | _ :: t, O => Ok (v :: t)
  | x :: t, S i' => t' <- set_item t i' v ;; Ok (x :: t')
  end.

(** The value the loop body stores for one [angle]. *)
Definition wrap (angle : R) : R :=
  if Rlt_dec PI angle then angle - 2 * PI
  else if Rlt_dec angle (- PI) then angle + 2 * PI
  else angle.

(** [[
    adjusted_diffs = np.zeros(len(diffs))
    for i, angle in np.ndenumerate(diffs):
        if angle > np.pi:
            adjusted_diffs[i] = angle - 2*np.pi
        elif angle < -np.pi:
            adjusted_diffs[i] = angle + 2*np.pi
        else:
            adjusted_diffs[i] = angle
    ]]
    The loop threads the array it fills. *)
Definition unwrap_step (acc : result (list R)) (ia : nat * R) : result (list R) :=
  adjusted_diffs <- acc ;;
  set_item adjusted_diffs (fst ia) (wrap (snd ia)).

Definition unwrap (diffs : list R) : result (list R) :=
  fold_left unwrap_step
            (combine (seq 0 (length diffs)) diffs)
            (Ok (repeat 0 (length diffs))).

(** *** [read_iq]
    [[
    with open(file, 'rb') as data_file:
        data = np.fromfile(data_file, dtype=dtype, count=n, offset=header_bytes)
    return data.astype(np.float64).view(np.complex128)
    ]] *)

Section ReadIQ.

(** The [dtype] argument: the type of one scalar item, its size in bytes,
    how its bytes decode, and the float64 value [astype] gives it. *)
Variable item : Type.
Variable itemsize : positive.
Variable decode : list Byte.byte -> item.
Variable as_float64 : item -> R.

Fixpoint read_items (num : nat) (bytes : list Byte.byte) : list item :=
  match num with
  | O => []
  | S k =>
      decode (firstn (Pos.to_nat itemsize) bytes)
      :: read_items k (skipn (Pos.to_nat itemsize) bytes)
  end.

(** [np.fromfile] on a file just opened: seek [offset] bytes on (a
    negative seek fails), take the item count from the bytes that remain
    when [count] is negative (a negative result is no valid array
    dimension), and keep the whole items actually read. *)
Definition np_fromfile (file : list Byte.byte) (count offset : Z) : result (list item) :=
  if (offset <? 0)%Z then Raise OSError
  else
    let remaining := (Z.of_nat (length file) - offset)%Z in
    let num := if (count <? 0)%Z then Z.quot remaining (Z.pos itemsize) else count in
    if (num <? 0)%Z then Raise ValueError
    else
      let nread := Z.min num (Z.max 0 remaining / Z.pos itemsize) in
      Ok (read_items (Z.to_nat nread) (skipn (Z.to_nat offset) file)).

Fixpoint pair_up (data : list R) : list complex :=
  match data with
  | x :: y :: t => mkC x y :: pair_up t
  | _ => []
  end.

(** [.view(np.complex128)] on a 1-d float64 array: 16 must divide the
    array's size in bytes, else ValueError. *)
Definition view_complex128 (data : list R) : result (list complex) :=
  if ((8 * length data) mod 16 =? 0)%nat then Ok (pair_up data)
  else Raise ValueError.

Definition read_iq (file : list Byte.byte) (n header_bytes : Z) : result (list complex) :=
  data <- np_fromfile file n header_bytes ;;
  view_complex128 (map as_float64 data).

End ReadIQ.

(** A five-byte file with a one-byte header, read as one-byte unsigned
    items ([dtype=np.uint8]). *)
Definition byte_value (bytes : list Byte.byte) : nat :=
  Strings.Byte.to_nat (hd Byte.x00 bytes).

Definition sample_file : list Byte.byte :=
  [Byte.xff; Byte.x01; Byte.x02; Byte.x03; Byte.x04].

(** *** The rotation demonstration
    [[
    s2 = cmath.rect(radius, phase)
    s3 = s1 * s2
    s4 = s1 * np.conj(s2)
    print(np.absolute(s4))
    ]] *)

(** [cmath.rect(r, phi)] *)
Definition rect (radius phase : R) : complex :=
  mkC (radius * cos phase) (radius * sin phase).

(** [np.absolute] of a complex number. *)
Definition np_absolute (z : complex) : R :=
  R_sqrt.sqrt (real z * real z + imag z * imag z).

(** *** The search for the first index where the two paths part
    [[
    i = 0
    while diffs[i] - deltas[i] < 1e-10:
        i += 1
    ]]
    Indexing past the end of either array is an IndexError. *)
Fixpoint first_jump_from (i : nat) (diffs deltas : list R) : result nat :=
  match diffs, deltas with
  | diff :: diffs', delta :: deltas' =>
      if Rlt_dec (diff - delta) 1e-10
      then first_jump_from (S i) diffs' deltas'
      else Ok i
  | _, _ => Raise IndexError
  end.

Definition first_jump (diffs deltas : list R) : result nat :=
  first_jump_from 0 diffs deltas.

(** *** Saving the capture
    [[
    temp = samples.astype(np.complex64)
    temp.tofile(filename)
    ]]
    Each sample is written as its real part and then its imaginary part,
    both narrowed to the file's scalar type. *)

Section Capture.

Variable item : Type.
Variable narrow : R -> item.
Variable encode : item -> list Byte.byte.

Definition tofile (samples : list complex) : list Byte.byte :=
  flat_map (fun z => encode (narrow (real z)) ++ encode (narrow (imag z)))
           samples.

End Capture.

(** *** The whole receive chain, as the last processing cell runs it
    [[
    f2 = 3.0e5
    ...
    shifted = samples * mixing_signal
    cutoff = 150.0e3
    ...
    h = sinc * w
    filtered = np.convolve(shifted, h)
    r = 10
    ...
    downsampled = filtered[::r]
    ...
    deltas = np.angle(rotated)
    ]] *)
Definition fm_receive (samples : list complex) (sample_rate : R) : result (list R) :=
  shifted <- mix samples sample_rate 300000 ;;
  h <- design_lowpass 150000 sample_rate ;;
  filtered <- apply_filter shifted h ;;
  downsampled <- decimate filtered 10 ;;
  demodulate downsampled.

End Ideal.

(** ** IEEE-754 binary64: complex128 as a pair of primitive floats *)

Module Binary64.

Record complex128 : Set := mk128 { real : float; imag : float }.

(** The complex multiply loop: [(ar*br - ai*bi, ar*bi + ai*br)]. *)
Definition multiply (a b : complex128) : complex128 :=
  mk128 (real a * real b - imag a * imag b)%float
        (real a * imag b + imag a * real b)%float.

(** [np.conj] flips the sign of the imaginary part, also of a zero. *)
Definition conjugate (a : complex128) : complex128 :=
  mk128 (real a) (- imag a)%float.

(** The float64 nearest to pi, [np.pi]. *)
Definition pi : float := 0x1.921fb54442d18p+1%float.

(** An angle is either a value the IEEE-754 and C standards fix bit for
    bit, or the math library's rounding of atan2 at an ordinary point,
    which is kept symbolic. *)
Inductive angle64 : Set :=
| Exact (v : float)
| Libm (y x : float).

Definition negative_sign (c : float_class) : bool :=
  match c with
  | NNormal | NSubn | NZero | NInf => true
  | _ => false
  end.

(** [np.arctan2(y, x)].  NaN propagates.  For [y] a zero the result is a
    zero of [y]'s sign when [x] is positive or +0, and pi with [y]'s sign
    when [x] is negative or -0. *)
Definition arctan2 (y x : float) : angle64 :=
  match classify y, classify x with
  | NaN, _ | _, NaN => Exact nan
  | PZero, cx => if negative_sign cx then Exact pi else Exact zero
  | NZero, cx => if negative_sign cx then Exact (- pi)%float else Exact neg_zero
  | _, _ => Libm y x
  end.

(** [np.angle(z)] is [arctan2(z.imag, z.real)]. *)
Definition np_angle (z : complex128) : angle64 := arctan2 (imag z) (real z).

#[export] Instance binary64_ops : SampleOps complex128 angle64 := {
  c_mul := multiply;
  c_conj := conjugate;
  c_angle := np_angle
}.

(** A zero of either sign. *)
Definition is_zero (x : float) : bool :=
  match classify x with
  | PZero | NZero => true
  | _ => false
  end.

(** [z == 0] for a complex128: both parts are zeros. *)
Definition is_czero (z : complex128) : bool := is_zero (real z) && is_zero (imag z).

Definition is_nan_angle (a : angle64) : bool :=
  match a with
  | Exact v => match classify v with NaN => true | _ => false end
  | Libm _ _ => false
  end.

End Binary64.

(** ** Exact arithmetic with signed zeros *)

Module Signed.

Local Open Scope R_scope.

(** A float64 without rounding: a real number and, read only when that
    number is zero, whether the zero is the negative one. *)
Record float64 : Type := mkF { value : R; minus_zero : bool }.

(** The sign bit: the sign of a nonzero number, the recorded sign of a
    zero. *)
Definition signbit (x : float64) : bool :=
  if Rlt_dec (value x) 0 then true
  else if Rlt_dec 0 (value x) then false
  else minus_zero x.

(** Negation flips the sign bit, of a zero too. *)
Definition fneg (x : float64) : float64 :=
  mkF (- value x) (negb (signbit x)).

(** The sign of a product is the exclusive or of the signs. *)
Definition fmul (x y : float64) : float64 :=
  mkF (value x * value y) (xorb (signbit x) (signbit y)).

(** A sum that is zero is -0 only when both operands are negative
    (round to nearest); so [x + (-x)] and [+0 + -0] are +0. *)
Definition fadd (x y : float64) : float64 :=
  mkF (value x + value y) (signbit x && signbit y).

(** [x - y] is [x + (-y)]. *)
Definition fsub (x y : float64) : float64 :=
  mkF (value x - value y) (signbit x && negb (signbit y)).

Record complex128 : Type := mkZ { re : float64; im : float64 }.

(** The complex multiply loop: [(ar*br - ai*bi, ar*bi + ai*br)]. *)
Definition multiply (a b : complex128) : complex128 :=
  mkZ (fsub (fmul (re a) (re b)) (fmul (im a) (im b)))
      (fadd (fmul (re a) (im b)) (fmul (im a) (re b))).

(** [np.conj] *)
Definition conjugate (a : complex128) : complex128 :=
  mkZ (re a) (fneg (im a)).

(** [np.arctan2(y, x)].  For [y] a zero the result is a zero when [x] is
    positive or +0, and pi with the sign of [y] when [x] is negative or
    -0; elsewhere it is the four-quadrant arctangent of the two numbers.
    The result is given as a real number: the sign of a zero result
    plays no part in what follows. *)
Definition arctan2 (y x : float64) : R :=
  if Req_dec_T (value y) 0 then
    if signbit x then (if signbit y then - PI else PI) else 0
  else Ideal.arctan2 (value y) (value x).

(** [np.angle(z)] is [arctan2(z.imag, z.real)]. *)
Definition np_angle (z : complex128) : R := arctan2 (im z) (re z).

#[export] Instance signed_ops : SampleOps complex128 R := {
  c_mul := multiply;
  c_conj := conjugate;
  c_angle := np_angle
}.

(** [[
    angles = np.angle(downsampled)
    diffs = np.diff(angles)
    ]] *)
Definition naive_diffs (downsampled : list complex128) : result (list R) :=
  Ideal.np_diff (map np_angle downsampled).

(** The sample [x + yj] written with ordinary literals: its zeros are
    positive. *)
Definition sample (x y : R) : complex128 := mkZ (mkF x false) (mkF y false).

(** The two numbers of a sample, signs of zeros forgotten. *)
Definition exact (z : complex128) : Ideal.complex :=
  Ideal.mkC (value (re z)) (value (im z)).

End Signed.

(** * Properties *)

(** ** Slices and broadcasting *)

(** Python's behaviour on small arrays. *)
Example slice_to_negative_stop :
  slice_to [1; 2; 3]%nat (-1) = [1; 2]%nat /\ slice_to ([] : list nat) (-1) = [].
Proof. split; reflexivity. Qed.

Example slice_step_both_ways :
  slice_step [0; 1; 2; 3; 4]%nat 2 = Ok [0; 2; 4]%nat /\
  slice_step [0; 1; 2; 3; 4]%nat (-2) = Ok [4; 2; 0]%nat /\
  slice_step [0; 1; 2; 3; 4]%nat 0 = Raise ValueError.
Proof. repeat split; reflexivity. Qed.

Example broadcast_shapes :
  broadcast Nat.add [1; 2]%nat [10; 20]%nat = Ok [11; 22]%nat /\
  broadcast Nat.add [1]%nat [10; 20]%nat = Ok [11; 21]%nat /\
  broadcast Nat.add [1; 2]%nat [10; 20; 30]%nat = Raise ValueError.
Proof. repeat split; reflexivity. Qed.

Example decimate_by_three :
  decimate [10; 11; 12; 13; 14; 15; 16]%nat 3 = Ok [10; 13]%nat /\
  decimate [10; 11; 12]%nat 0 = Raise ZeroDivisionError.
Proof. split; reflexivity. Qed.

Section ArrayFacts.
Context {A : Type}.
Implicit Types a : list A.

Lemma slice_from_1 a : slice_from a 1 = tl a.
Proof.
  unfold slice_from, clamp_index. simpl.
  destruct a as [|x t]; simpl; [reflexivity|].
  destruct (length t); reflexivity.
Qed.

Lemma clamp_index_pred (len : nat) :
  clamp_index len (Z.of_nat len - 1) = (len - 1)%nat.
Proof.
  unfold clamp_index.
  destruct (Z.ltb_spec (Z.of_nat len - 1) 0); lia.
Qed.

Lemma slice_to_drop a (m : nat) :
  (0 < m <= length a)%nat ->
  slice_to a (- Z.of_nat m) = firstn (length a - m) a.
Proof.
  intros Hm. unfold slice_to, clamp_index.
  destruct (Z.ltb_spec (- Z.of_nat m) 0); [|lia].
  f_equal. lia.
Qed.

Lemma take_every_nth (r : nat) a :
  (1 <= r)%nat ->
  forall k i, nth_error (take_every r k a) i = nth_error a (k + i * r).
Proof.
  intros Hr. induction a as [|x t IH]; intros k i.
  - simpl. destruct i, (k + _)%nat; reflexivity.
  - destruct k as [|k']; simpl.
    + destruct i as [|i']; [reflexivity|].
      cbn [nth_error]. rewrite IH.
      replace (S i' * r)%nat with (S (r - 1 + i' * r)) by lia.
      reflexivity.
    + apply IH.
Qed.

Lemma take_every_1 a : take_every 1 0 a = a.
Proof. induction a as [|x t IH]; simpl; [reflexivity|now rewrite IH]. Qed.

(** A list is as long as the first index at which it has nothing. *)
Lemma length_by_nth_error a (q : nat) :
  nth_error a q = None ->
  (forall i, (i < q)%nat -> nth_error a i <> None) ->
  length a = q.
Proof.
  intros Hq Hlt. apply nth_error_None in Hq.
  destruct (Nat.eq_dec (length a) q) as [|Hne]; [assumption|].
  exfalso. apply (Hlt (length a)); [lia|].
  apply nth_error_None. lia.
Qed.

End ArrayFacts.

Section BroadcastFacts.
Context {A B C : Type} (f : A -> B -> C).

Lemma broadcast_same_length (a : list A) (b : list B) :
  length a = length b -> broadcast f a b = Ok (map2 f a b).
Proof. intros E. unfold broadcast. now rewrite E, Nat.eqb_refl. Qed.

Lemma map2_length (a : list A) (b : list B) :
  length a = length b -> length (map2 f a b) = length a.
Proof.
  revert b. induction a as [|x a IH]; intros [|y b] E; simpl in *; try lia.
  now rewrite IH by lia.
Qed.

Lemma map2_nth (a : list A) (b : list B) (i : nat) (x : A) (y : B) :
  nth_error a i = Some x -> nth_error b i = Some y ->
  nth_error (map2 f a b) i = Some (f x y).
Proof.
  revert b i. induction a as [|x0 a IH]; intros [|y0 b] [|i] Ha Hb;
    simpl in *; try discriminate.
  - now inversion Ha; inversion Hb.
  - now apply IH.
Qed.

End BroadcastFacts.

(** ** Consecutive pairs *)

Section PairwiseFacts.
Context {A B : Type}.

Lemma map2_shifted (f : A -> A -> B) (x : A) (t : list A) :
  map2 f t (firstn (length t) (x :: t)) = pairwise (fun u v => f v u) (x :: t).
Proof.
  revert x. induction t as [|y t IH]; intros x; [reflexivity|].
  cbn [length firstn map2]. rewrite IH. reflexivity.
Qed.

Lemma pairwise_length (g : A -> A -> B) (a : list A) :
  length (pairwise g a) = (length a - 1)%nat.
Proof.
  induction a as [|x [|y t] IH]; try reflexivity.
  change (pairwise g (x :: y :: t)) with (g x y :: pairwise g (y :: t)).
  cbn [length] in *. lia.
Qed.

Lemma pairwise_nth (g : A -> A -> B) (a : list A) (i : nat) (u v : A) :
  nth_error a i = Some u -> nth_error a (S i) = Some v ->
  nth_error (pairwise g a) i = Some (g u v).
Proof.
  revert i. induction a as [|x [|y t] IH]; intros i Hu Hv.
  - destruct i; discriminate.
  - destruct i as [|[|i]]; discriminate.
  - change (pairwise g (x :: y :: t)) with (g x y :: pairwise g (y :: t)).
    destruct i as [|i].
    + cbn in Hu, Hv. inversion Hu; inversion Hv. reflexivity.
    + cbn [nth_error]. apply IH; assumption.
Qed.

End PairwiseFacts.

Lemma map2_map_r {A B B' C : Type} (f : A -> B' -> C) (g : B -> B')
    (a : list A) (b : list B) :
  map2 f a (map g b) = map2 (fun x y => f x (g y)) a b.
Proof.
  revert b. induction a as [|x a IH]; intros [|y b]; cbn; try reflexivity.
  now rewrite IH.
Qed.

Lemma map_map2 {A B C D : Type} (f : A -> B -> C) (h : C -> D)
    (a : list A) (b : list B) :
  map h (map2 f a b) = map2 (fun x y => h (f x y)) a b.
Proof.
  revert b. induction a as [|x a IH]; intros [|y b]; cbn; try reflexivity.
  now rewrite IH.
Qed.

(** ** [read_iq]: interleaved scalars to complex samples *)

Module ReadIQFacts.
Import Ideal.
Local Open Scope R_scope.

(** Sixteen divides the byte size of a float64 array exactly when its
    item count is even. *)
Lemma whole_pairs (n : nat) :
  (((8 * n) mod 16 =? 0)%nat = Nat.even n).
Proof.
  destruct (Nat.Even_Odd_dec n) as [[k ->]|[k ->]].
  - replace (Nat.even (2 * k)) with true
      by (symmetry; apply Nat.even_spec; now exists k).
    apply Nat.eqb_eq.
    replace (8 * (2 * k))%nat with (k * 16)%nat by lia.
    apply Nat.Div0.mod_mul.
  - replace (Nat.even (2 * k + 1)) with false.
    + apply Nat.eqb_neq.
      replace (8 * (2 * k + 1))%nat with (8 + k * 16)%nat by lia.
      rewrite Nat.Div0.mod_add. discriminate.
    + symmetry. rewrite <- Nat.negb_odd.
      apply negb_false_iff, Nat.odd_spec. now exists k.
Qed.

Lemma pair_up_length (data : list R) : length (pair_up data) = (length data / 2)%nat.
Proof.
  induction data as [data IH] using (induction_ltof1 _ (@length R)).
  unfold ltof in IH. destruct data as [|x [|y t]]; [reflexivity|reflexivity|].
  cbn [pair_up length]. rewrite IH by (cbn; lia).
  change (S (S (length t))) with (1 * 2 + length t)%nat.
  rewrite Nat.add_comm, Nat.div_add by lia. lia.
Qed.

Lemma pair_up_nth (data : list R) (i : nat) (x y : R) :
  nth_error data (2 * i) = Some x ->
  nth_error data (2 * i + 1) = Some y ->
  nth_error (pair_up data) i = Some (mkC x y).
Proof.
  revert data. induction i as [|i IH]; intros data Hx Hy.
  - destruct data as [|x0 [|y0 t]]; try discriminate.
    cbn in Hx, Hy. now inversion Hx; inversion Hy.
  - replace (2 * S i)%nat with (S (S (2 * i))) in Hx by lia.
    replace (2 * S i + 1)%nat with (S (S (2 * i + 1))) in Hy by lia.
    destruct data as [|x0 [|y0 t]]; try discriminate.
    cbn [pair_up nth_error]. now apply IH.
Qed.

Section Reader.
Variable item : Type.
Variable itemsize : positive.
Variable decode : list Byte.byte -> item.
Variable as_float64 : item -> R.

Lemma read_items_length (num : nat) (bytes : list Byte.byte) :
  length (read_items itemsize decode num bytes) = num.
Proof.
  revert bytes. induction num as [|k IH]; intros bytes; [reflexivity|].
  cbn [read_items length]. now rewrite IH.
Qed.

(** The number of scalars obtained: the header is skipped, whole items
    only are read, and a non-negative count caps their number. *)
Lemma np_fromfile_length (file : list Byte.byte) (count offset : Z)
    (data : list item) :
  (0 <= offset <= Z.of_nat (length file))%Z ->
  np_fromfile itemsize decode file count offset = Ok data ->
  let available := ((Z.of_nat (length file) - offset) / Z.pos itemsize)%Z in
  Z.of_nat (length data)
  = (if (count <? 0)%Z then available else Z.min count available)%Z.
Proof.
  intros Hoff. unfold np_fromfile.
  destruct (Z.ltb_spec offset 0) as [|_]; [lia|]. cbv zeta.
  rewrite Z.max_r by lia.
  assert (Hq : (Z.quot (Z.of_nat (length file) - offset) (Z.pos itemsize)
                = (Z.of_nat (length file) - offset) / Z.pos itemsize)%Z)
    by (apply Z.quot_div_nonneg; lia).
  assert (Hnn : (0 <= (Z.of_nat (length file) - offset) / Z.pos itemsize)%Z)
    by (apply Z.div_pos; lia).
  destruct (Z.ltb_spec count 0) as [Hc|Hc].
  - rewrite Hq.
    destruct (Z.ltb_spec ((Z.of_nat (length file) - offset) / Z.pos itemsize) 0)%Z
      as [|_]; [lia|].
    intros E. injection E as <-. rewrite read_items_length. lia.
  - destruct (Z.ltb_spec count 0) as [|_]; [lia|].
    intros E. injection E as <-. rewrite read_items_length. lia.
Qed.

(** C9: when the scalars obtained from the file (header skipped, count
    limit applied) are odd in number, [read_iq] fails with the reader's
    ValueError; when they are even in number it returns half as many
    complex samples, sample i made of scalars 2i (real part) and 2i+1
    (imaginary part), each converted to float64. *)
Theorem read_iq_whole_pairs (file : list Byte.byte) (n header_bytes : Z)
    (data : list item) :
  np_fromfile itemsize decode file n header_bytes = Ok data ->
  (Nat.odd (length data) = true ->
   read_iq itemsize decode as_float64 file n header_bytes = Raise ValueError) /\
  (Nat.even (length data) = true ->
   exists samples,
     read_iq itemsize decode as_float64 file n header_bytes = Ok samples /\
     length samples = (length data / 2)%nat /\
     forall i, (i < length data / 2)%nat ->
       exists re im,
         nth_error data (2 * i) = Some re /\
         nth_error data (2 * i + 1) = Some im /\
         nth_error samples i = Some (mkC (as_float64 re) (as_float64 im))).
Proof.
  intros Hdata. unfold read_iq. rewrite Hdata. cbn [bind].
  unfold view_complex128. rewrite whole_pairs, length_map. split.
  - intros Hodd. rewrite <- Nat.negb_odd, Hodd. reflexivity.
  - intros Heven. rewrite Heven.
    exists (pair_up (map as_float64 data)).
    split; [reflexivity|]. split; [now rewrite pair_up_length, length_map|].
    intros i Hi.
    assert (Hlen : (2 * i + 1 < length data)%nat).
    { pose proof (Nat.div_mod_eq (length data) 2). lia. }
    destruct (nth_error data (2 * i)) as [re|] eqn:Ere;
      [|apply nth_error_None in Ere; lia].
    destruct (nth_error data (2 * i + 1)) as [im|] eqn:Eim;
      [|apply nth_error_None in Eim; lia].
    exists re, im. split; [reflexivity|]. split; [reflexivity|].
    apply pair_up_nth; rewrite nth_error_map; [now rewrite Ere|now rewrite Eim].
Qed.

End Reader.

Lemma read_iq_whole_pairs_witness :
  (exists samples,
     read_iq 1 byte_value INR sample_file (-1) 1 = Ok samples /\
     length samples = 2%nat) /\
  read_iq 1 byte_value INR sample_file 3 1 = Raise ValueError.
Proof.
  split.
  - destruct (@read_iq_whole_pairs nat 1 byte_value INR sample_file (-1) 1
                [1; 2; 3; 4]%nat eq_refl) as [_ Heven].
    destruct (Heven eq_refl) as (samples & Hs & Hlen & _).
    exists samples. split; [exact Hs|exact Hlen].
  - destruct (@read_iq_whole_pairs nat 1 byte_value INR sample_file 3 1
                [1; 2; 3]%nat eq_refl) as [Hodd _].
    exact (Hodd eq_refl).
Defined.

End ReadIQFacts.

(** ** The mixer over exact arithmetic *)

Module MixerFacts.
Import Ideal.
Local Open Scope R_scope.

Lemma complex_eq (a b : complex) :
  real a = real b -> imag a = imag b -> a = b.
Proof. destruct a, b; cbn; intros -> ->; reflexivity. Qed.

(** The argument of [np.exp] at time [ti] is purely imaginary. *)
Lemma phase_argument (f2 ti : R) :
  Cmul (Cmul (Cmul (Cmul j (of_real 2)) (of_real PI)) (of_real f2)) (of_real ti)
  = mkC 0 (2 * PI * f2 * ti).
Proof.
  apply complex_eq; unfold Cmul, j, of_real; cbn [real imag]; ring.
Qed.

(** The sample of the mixing signal at time [ti] is the unit phasor of
    angle [2 pi f2 ti]. *)
Lemma phasor (f2 ti : R) :
  Cexp (Cmul (Cmul (Cmul (Cmul j (of_real 2)) (of_real PI)) (of_real f2))
             (of_real ti))
  = mkC (cos (2 * PI * f2 * ti)) (sin (2 * PI * f2 * ti)).
Proof.
  rewrite phase_argument. unfold Cexp; cbn [real imag].
  rewrite exp_0. f_equal; ring.
Qed.

Lemma mixing_signal_length (n : nat) (sample_rate f2 : R) :
  length (mixing_signal n sample_rate f2) = n.
Proof. unfold mixing_signal, time_steps. now rewrite !length_map, length_seq. Qed.

(** Rotating by an angle and then by its opposite is the identity. *)
Lemma rotate_back (s : complex) (f2 ti : R) :
  Cmul (Cmul s (mkC (cos (2 * PI * f2 * ti)) (sin (2 * PI * f2 * ti))))
       (mkC (cos (2 * PI * - f2 * ti)) (sin (2 * PI * - f2 * ti)))
  = s.
Proof.
  replace (2 * PI * - f2 * ti) with (- (2 * PI * f2 * ti)) by ring.
  rewrite cos_neg, sin_neg.
  pose proof (sin2_cos2 (2 * PI * f2 * ti)) as E. unfold Rsqr in E.
  set (c := cos _) in *. set (d := sin _) in *.
  apply complex_eq; unfold Cmul; cbn [real imag].
  - transitivity (real s * (d * d + c * c)); [ring|rewrite E; ring].
  - transitivity (imag s * (d * d + c * c)); [ring|rewrite E; ring].
Qed.

Lemma mix_back (g g' : nat -> complex) (samples : list complex) :
  (forall s i, Cmul (Cmul s (g i)) (g' i) = s) ->
  forall k,
    map2 Cmul (map2 Cmul samples (map g (seq k (length samples))))
              (map g' (seq k (length samples)))
    = samples.
Proof.
  intros Hg. induction samples as [|s t IH]; intros k; [reflexivity|].
  cbn [length seq map map2]. now rewrite Hg, IH.
Qed.

(** C4: for a positive sample rate and any shift f, mixing multiplies
    sample i by exp(j 2 pi f i / sample_rate), keeps the length, and
    mixing the result by -f gives the original samples back (exactly,
    over exact complex arithmetic). *)
Theorem mix_invertible (samples : list complex) (sample_rate f : R) :
  0 < sample_rate ->
  exists shifted,
    mix samples sample_rate f = Ok shifted /\
    length shifted = length samples /\
    (forall i, (i < length samples)%nat ->
       nth i shifted C0
       = Cmul (nth i samples C0)
              (Cexp (mkC 0 (2 * PI * f * (INR i / sample_rate))))) /\
    mix shifted sample_rate (- f) = Ok samples.
Proof.
  intros _.
  assert (Hlen : length (map2 Cmul samples
                           (mixing_signal (length samples) sample_rate f))
                 = length samples).
  { apply map2_length. now rewrite mixing_signal_length. }
  exists (map2 Cmul samples (mixing_signal (length samples) sample_rate f)).
  split; [|split; [exact Hlen|split]].
  - unfold mix. apply broadcast_same_length. now rewrite mixing_signal_length.
  - intros i Hi. apply nth_error_nth. apply map2_nth.
    + now apply nth_error_nth'.
    + unfold mixing_signal, time_steps. rewrite !map_map.
      rewrite nth_error_map, nth_error_nth' with (d := 0%nat)
        by (now rewrite length_seq).
      rewrite seq_nth by assumption. cbn [option_map Nat.add].
      rewrite phasor. unfold Cexp; cbn [real imag].
      rewrite exp_0. do 2 f_equal; ring.
  - unfold mix. rewrite Hlen.
    rewrite broadcast_same_length by (now rewrite mixing_signal_length).
    f_equal. unfold mixing_signal, time_steps. rewrite !map_map.
    apply mix_back. intros s i. rewrite !phasor. apply rotate_back.
Qed.

Lemma mix_invertible_witness :
  exists shifted,
    mix [mkC 1 0; mkC 0 1] 2048000 300000 = Ok shifted /\
    mix shifted 2048000 (- 300000) = Ok [mkC 1 0; mkC 0 1].
Proof.
  destruct (@mix_invertible [mkC 1 0; mkC 0 1] 2048000 300000)
    as (shifted & Hs & _ & _ & Hback); [lra|].
  exists shifted. split; [exact Hs|exact Hback].
Defined.

End MixerFacts.

(** ** The low-pass kernel *)

Module LowpassFacts.
Import Ideal.
Local Open Scope R_scope.

Lemma taps_200 : taps = 200%nat.
Proof. reflexivity. Qed.

Lemma np_blackman_length (M : nat) : length (np_blackman M) = M.
Proof.
  destruct M as [|[|M]]; [reflexivity|reflexivity|].
  unfold np_blackman. now rewrite length_map, length_seq.
Qed.

Lemma np_blackman_nth (M n : nat) :
  (2 <= M)%nat -> (n < M)%nat ->
  nth n (np_blackman M) 0
  = 42 / 100 - 5 / 10 * cos (2 * PI * INR n / (INR M - 1))
    + 8 / 100 * cos (4 * PI * INR n / (INR M - 1)).
Proof.
  intros HM Hn. destruct M as [|[|M]]; [lia|lia|].
  unfold np_blackman.
  set (w := fun k => _ - _ * cos (_ / _) + _ * cos (_ / _)).
  rewrite nth_indep with (d' := w 0%nat) by (now rewrite length_map, length_seq).
  rewrite map_nth, seq_nth by assumption. reflexivity.
Qed.

(** With a nonzero sample rate the cell runs to its end whatever the
    cutoff is. *)
Lemma design_lowpass_kernel (cutoff sample_rate : R) :
  sample_rate <> 0 ->
  design_lowpass cutoff sample_rate
  = Ok (map2 Rmult
          (map (fun n => np_sinc (2 * (cutoff / sample_rate)
                                  * (INR n - (INR taps - 1) / 2)))
               (seq 0 taps))
          (np_blackman taps)).
Proof.
  intros Hsr. unfold design_lowpass.
  destruct (Req_dec_T sample_rate 0) as [E|_]; [contradiction|].
  cbv zeta. apply broadcast_same_length.
  now rewrite length_map, length_seq, np_blackman_length.
Qed.

Lemma map2_ones (g : nat -> R) (l : list nat) (w : list R) :
  (forall n, g n = 1) -> length l = length w ->
  map2 Rmult (map g l) w = w.
Proof.
  intros Hg. revert w. induction l as [|n l IH]; intros [|x w] E;
    try discriminate; [reflexivity|].
  cbn [map map2]. rewrite Hg, Rmult_1_l, IH; [reflexivity|].
  now injection E.
Qed.

(** A cutoff of 0 Hz is accepted: the sinc factor is 1 everywhere and the
    kernel is the bare Blackman window.  A cutoff equal to the sample
    rate, twice the Nyquist frequency, is accepted as well. *)
Lemma design_lowpass_zero_cutoff :
  (0 : R) <= 0 /\
  design_lowpass 0 2048000 = Ok (np_blackman taps) /\
  2048000 >= 2048000 / 2 /\
  raises (design_lowpass 2048000 2048000) = false.
Proof.
  split; [lra|]. split; [|split; [lra|]].
  - rewrite design_lowpass_kernel by lra. f_equal.
    apply map2_ones.
    + intros n. unfold np_sinc.
      destruct (Req_dec_T (2 * (0 / 2048000) * (INR n - (INR taps - 1) / 2)) 0)
        as [_|Hne]; [reflexivity|].
      exfalso. apply Hne. unfold Rdiv. ring.
    + now rewrite length_seq, np_blackman_length.
  - rewrite design_lowpass_kernel by lra. reflexivity.
Qed.

(** C8, as the code has it: the designer makes no range check on the
    cutoff.  For every cutoff, also one <= 0 or >= sample_rate/2, and
    every nonzero sample rate it returns the 200-tap kernel
    h[n] = sinc(2 frac (n - (N-1)/2)) * blackman(N)[n], frac =
    cutoff/sample_rate, and raises nothing. *)
Theorem design_lowpass_unchecked (cutoff sample_rate : R) :
  sample_rate <> 0 ->
  exists h,
    design_lowpass cutoff sample_rate = Ok h /\
    raises (design_lowpass cutoff sample_rate) = false /\
    length h = taps /\ taps = 200%nat /\
    forall n, (n < taps)%nat ->
      nth n h 0
      = np_sinc (2 * (cutoff / sample_rate) * (INR n - (INR taps - 1) / 2))
        * (42 / 100 - 5 / 10 * cos (2 * PI * INR n / (INR taps - 1))
           + 8 / 100 * cos (4 * PI * INR n / (INR taps - 1))).
Proof.
  intros Hsr. rewrite design_lowpass_kernel by assumption.
  eexists. split; [reflexivity|]. split; [reflexivity|].
  split; [|split; [exact taps_200|]].
  - rewrite map2_length; now rewrite length_map, length_seq, ?np_blackman_length.
  - intros n Hn. apply nth_error_nth.
    rewrite <- np_blackman_nth by (rewrite ?taps_200 in *; lia).
    apply map2_nth.
    + rewrite nth_error_map, nth_error_nth' with (d := 0%nat)
        by (now rewrite length_seq).
      rewrite seq_nth by assumption. reflexivity.
    + apply nth_error_nth'. now rewrite np_blackman_length.
Qed.

Lemma design_lowpass_unchecked_witness :
  exists h, design_lowpass (- 150000) 2048000 = Ok h /\ length h = taps.
Proof.
  destruct (@design_lowpass_unchecked (- 150000) 2048000)
    as (h & Hh & _ & Hlen & _); [lra|].
  exists h. split; [exact Hh|exact Hlen].
Defined.

End LowpassFacts.

(** ** The convolution *)

Module FilterFacts.
Import Ideal.
Local Open Scope R_scope.

Lemma Cadd_0_l (a : complex) : Cadd C0 a = a.
Proof. destruct a. unfold Cadd, C0; cbn [real imag]. f_equal; ring. Qed.

Lemma Cadd_0_r (a : complex) : Cadd a C0 = a.
Proof. destruct a. unfold Cadd, C0; cbn [real imag]. f_equal; ring. Qed.

(** A sum all of whose terms vanish but the one at index [k]. *)
Lemma Csum_single (g : nat -> complex) (k : nat) :
  forall start len,
    (start <= k < start + len)%nat ->
    (forall m, (start <= m < start + len)%nat -> m <> k -> g m = C0) ->
    Csum (map g (seq start len)) = g k.
Proof.
  intros start len. revert start.
  induction len as [|len IH]; intros start Hk Hz; [lia|].
  cbn [seq map Csum fold_right].
  destruct (Nat.eq_dec start k) as [->|Hne].
  - assert (E : fold_right Cadd C0 (map g (seq (S k) len)) = C0).
    { clear IH Hk. assert (Hz' : forall m, (S k <= m < S k + len)%nat -> g m = C0)
        by (intros m Hm; apply Hz; lia).
      clear Hz. revert Hz'. generalize (S k) as b.
      induction len as [|len IH]; intros b Hz'; [reflexivity|].
      cbn [seq map fold_right]. rewrite Hz' by lia.
      rewrite Cadd_0_l. apply IH. intros m Hm. apply Hz'. lia. }
    rewrite E. apply Cadd_0_r.
  - rewrite (Hz start) by lia. rewrite Cadd_0_l.
    apply IH; [lia|]. intros m Hm. apply Hz. lia.
Qed.

Lemma conv_at_first (a v : list complex) :
  a <> [] -> v <> [] ->
  conv_at a v 0 = Cmul (nth 0 a C0) (nth 0 v C0).
Proof.
  intros Ha Hv. unfold conv_at.
  assert (0 < length a)%nat by (destruct a; [easy|cbn; lia]).
  assert (0 < length v)%nat by (destruct v; [easy|cbn; lia]).
  rewrite (@Csum_single _ 0%nat).
  - unfold conv_term. cbn [Nat.leb Nat.sub andb].
    destruct (Nat.ltb_spec 0 (length v)); [reflexivity|lia].
  - lia.
  - intros m Hm Hne. unfold conv_term.
    destruct (Nat.leb_spec m 0); [lia|reflexivity].
Qed.

Lemma conv_at_last (a v : list complex) :
  a <> [] -> v <> [] ->
  conv_at a v (length a + length v - 2)
  = Cmul (nth (length a - 1) a C0) (nth (length v - 1) v C0).
Proof.
  intros Ha Hv. unfold conv_at.
  assert (0 < length a)%nat by (destruct a; [easy|cbn; lia]).
  assert (0 < length v)%nat by (destruct v; [easy|cbn; lia]).
  rewrite (@Csum_single _ (length a - 1)%nat).
  - unfold conv_term.
    replace (length a + length v - 2 - (length a - 1))%nat
      with (length v - 1)%nat by lia.
    destruct (Nat.leb_spec (length a - 1) (length a + length v - 2)); [|lia].
    destruct (Nat.ltb_spec (length v - 1) (length v)); [reflexivity|lia].
  - lia.
  - intros m Hm Hne. unfold conv_term.
    destruct (Nat.ltb_spec (length a + length v - 2 - m) (length v)); [lia|].
    now rewrite andb_false_r.
Qed.

(** C7: for a non-empty input and a non-empty kernel the convolution
    returns len(input) + len(kernel) - 1 samples, output n being the sum
    of input[m] * kernel[n - m] over the overlap; nothing is cut off: the
    first output is input[0] * kernel[0] and the last is the product of
    the two last elements. *)
Theorem convolve_full (shifted : list complex) (h : list R) :
  shifted <> [] -> h <> [] ->
  exists filtered,
    apply_filter shifted h = Ok filtered /\
    length filtered = (length shifted + length h - 1)%nat /\
    (forall n, (n < length shifted + length h - 1)%nat ->
       nth n filtered C0 = conv_at shifted (map of_real h) n) /\
    nth 0 filtered C0 = Cmul (nth 0 shifted C0) (of_real (nth 0 h 0)) /\
    nth (length shifted + length h - 2) filtered C0
    = Cmul (nth (length shifted - 1) shifted C0)
           (of_real (nth (length h - 1) h 0)).
Proof.
  intros Hs Hh.
  assert (Hh' : map of_real h <> []) by (destruct h; [easy|discriminate]).
  assert (0 < length shifted)%nat by (destruct shifted; [easy|cbn; lia]).
  assert (0 < length h)%nat by (destruct h; [easy|cbn; lia]).
  set (out := map (conv_at shifted (map of_real h))
                  (seq 0 (length shifted + length h - 1))).
  assert (Hnth : forall n, (n < length shifted + length h - 1)%nat ->
                     nth n out C0 = conv_at shifted (map of_real h) n).
  { intros n Hn. unfold out.
    rewrite nth_indep with (d' := conv_at shifted (map of_real h) 0%nat)
      by (now rewrite length_map, length_seq).
    rewrite map_nth, seq_nth by assumption. reflexivity. }
  exists out. split; [|split; [|split; [exact Hnth|split]]].
  - unfold apply_filter, np_convolve.
    destruct shifted as [|s0 st]; [easy|].
    destruct h as [|h0 ht]; [easy|].
    cbn [map]. unfold out. cbn [length map]. now rewrite length_map.
  - unfold out. now rewrite length_map, length_seq.
  - rewrite Hnth by lia. rewrite conv_at_first by assumption.
    f_equal. change C0 with (of_real 0). apply map_nth.
  - rewrite Hnth by lia.
    replace (length h) with (length (map of_real h)) by apply length_map.
    rewrite conv_at_last by assumption. rewrite length_map.
    f_equal. change C0 with (of_real 0). apply map_nth.
Qed.

Lemma convolve_full_witness :
  exists filtered,
    apply_filter [mkC 1 0; mkC 0 1; mkC 2 2] [1; 3] = Ok filtered /\
    length filtered = 4%nat.
Proof.
  destruct (@convolve_full [mkC 1 0; mkC 0 1; mkC 2 2] [1; 3])
    as (filtered & Hf & Hlen & _); [discriminate|discriminate|].
  exists filtered. split; [exact Hf|exact Hlen].
Defined.

End FilterFacts.

(** ** Decimation and demodulation, for any number representation *)

Section Decimation.
Context {C : Type}.
Implicit Types input : list C.

Lemma truncate_to_multiple_firstn input (r : nat) :
  (1 <= r)%nat ->
  truncate_to_multiple input (Z.of_nat r)
  = Ok (firstn (length input - length input mod r) input).
Proof.
  intros Hr. unfold truncate_to_multiple.
  destruct (Z.eqb_spec (Z.of_nat r) 0) as [E|_]; [lia|].
  cbv zeta. rewrite <- Nat2Z.inj_mod.
  assert (Hle : (length input mod r <= length input)%nat)
    by (apply Nat.Div0.mod_le).
  destruct (Z.ltb_spec 0 (Z.of_nat (length input mod r))) as [Hpos|Hzero].
  - rewrite slice_to_drop by lia. reflexivity.
  - replace (length input mod r)%nat with 0%nat by lia.
    now rewrite Nat.sub_0_r, firstn_all.
Qed.

Lemma multiple_below input (r : nat) :
  (1 <= r)%nat ->
  (length input / r * r = length input - length input mod r)%nat.
Proof.
  intros Hr.
  pose proof (Nat.div_mod_eq (length input) r) as E. nia.
Qed.

(** C3: for every input of length L and every factor r >= 1, decimation
    by selection first drops exactly the trailing L mod r samples, then
    returns output[i] = input[i*r] for i < floor(L/r); the output has
    exactly floor(L/r) elements, and for r = 1 it is the input itself. *)
Theorem decimate_select input (r : nat) :
  (1 <= r)%nat ->
  let L := length input in
  exists truncated out,
    truncate_to_multiple input (Z.of_nat r) = Ok truncated /\
    input = truncated ++ skipn (L - L mod r) input /\
    length (skipn (L - L mod r) input) = (L mod r)%nat /\
    decimate input (Z.of_nat r) = Ok out /\
    length out = (L / r)%nat /\
    (forall i, (i < L / r)%nat -> nth_error out i = nth_error input (i * r)) /\
    (r = 1%nat -> out = input).
Proof.
  intros Hr L.
  exists (firstn (L - L mod r) input), (take_every r 0 (firstn (L - L mod r) input)).
  assert (Hle : (L mod r <= L)%nat) by apply Nat.Div0.mod_le.
  assert (Hmul : (L / r * r = L - L mod r)%nat) by (now apply multiple_below).
  assert (Hnth : forall i, (i < L / r)%nat ->
            nth_error (take_every r 0 (firstn (L - L mod r) input)) i
            = nth_error input (i * r)).
  { intros i Hi. rewrite take_every_nth by assumption. cbn [Nat.add].
    rewrite nth_error_firstn.
    destruct (Nat.ltb_spec (i * r) (L - L mod r)); [reflexivity|nia]. }
  repeat split.
  - now apply truncate_to_multiple_firstn.
  - symmetry. apply firstn_skipn.
  - rewrite length_skipn. fold L. lia.
  - unfold decimate. rewrite truncate_to_multiple_firstn by assumption.
    cbn [bind]. unfold slice_step. fold L.
    destruct (Z.eqb_spec (Z.of_nat r) 0); [lia|].
    destruct (Z.ltb_spec 0 (Z.of_nat r)); [|lia].
    now rewrite Nat2Z.id.
  - apply length_by_nth_error.
    + rewrite take_every_nth by assumption. cbn [Nat.add].
      apply nth_error_None. rewrite length_firstn. fold L. lia.
    + intros i Hi. rewrite Hnth by assumption.
      apply nth_error_Some. fold L. nia.
  - exact Hnth.
  - intros ->. rewrite take_every_1, Nat.mod_1_r, Nat.sub_0_r.
    apply firstn_all.
Qed.

End Decimation.

Lemma decimate_select_witness :
  exists out, decimate [10; 11; 12; 13; 14; 15; 16]%nat 3 = Ok out /\
              length out = 2%nat /\
              nth_error out 1 = Some 13%nat.
Proof.
  destruct (@decimate_select nat [10; 11; 12; 13; 14; 15; 16]%nat 3 ltac:(lia))
    as (truncated & out & _ & _ & _ & Hout & Hlen & Hnth & _).
  exists out. repeat split.
  - exact Hout.
  - exact Hlen.
  - apply (Hnth 1%nat). cbn. lia.
Defined.

Section StageFacts.
Context {C F : Type} `{SampleOps C F}.

(** The slicing and broadcasting of the cell never fail, and compute the
    angle of every consecutive pair. *)
Lemma demodulate_pairwise (s : list C) :
  demodulate s = Ok (pairwise pair_angle s).
Proof.
  unfold demodulate, slice_to. rewrite slice_from_1, clamp_index_pred.
  destruct s as [|x t]; [reflexivity|].
  cbn [tl length]. rewrite Nat.sub_1_r. cbn [Nat.pred].
  rewrite broadcast_same_length.
  - cbn [bind]. now rewrite map2_map_r, map_map2, map2_shifted.
  - rewrite length_map, length_firstn. cbn [length]. lia.
Qed.

End StageFacts.

Section ShortInput.
Context {C F : Type} `{SampleOps C F}.

(** C6: on an input of length 0 or 1 the demodulator returns the empty
    sequence, and no exception is raised. *)
Theorem demodulate_short_input (s : list C) :
  (length s < 2)%nat -> demodulate s = Ok [].
Proof.
  intros Hlen. rewrite demodulate_pairwise.
  destruct s as [|x [|y t]]; [reflexivity|reflexivity|].
  cbn [length] in Hlen. lia.
Qed.

End ShortInput.

(** ** The polar discriminator over exact arithmetic *)

Module IdealFacts.
Import Ideal.
Local Open Scope R_scope.

Lemma demodulate_short_input_witness :
  demodulate ([] : list complex) = Ok ([] : list R) /\
  demodulate [mkC 1 0] = Ok ([] : list R).
Proof.
  split.
  - apply (demodulate_short_input (H := ideal_ops) []). cbn. lia.
  - apply (demodulate_short_input (H := ideal_ops) [mkC 1 0]).
    cbn. lia.
Defined.

(** *** The arctangent on each region of the plane *)

(** Decide every comparison [arctan2] makes and drop the branches the
    hypotheses exclude. *)
Ltac arctan2_region :=
  unfold arctan2;
  repeat match goal with
         | |- context [Rlt_dec ?a ?b] => destruct (Rlt_dec a b); try lra
         | |- context [Rle_dec ?a ?b] => destruct (Rle_dec a b); try lra
         end;
  try reflexivity.

Lemma arctan2_right (y x : R) : 0 < x -> arctan2 y x = atan (y / x).
Proof. intros Hx. arctan2_region. Qed.

Lemma arctan2_upper_left (y x : R) :
  x < 0 -> 0 <= y -> arctan2 y x = atan (y / x) + PI.
Proof. intros Hx Hy. arctan2_region. Qed.

Lemma arctan2_lower_left (y x : R) :
  x < 0 -> y < 0 -> arctan2 y x = atan (y / x) - PI.
Proof. intros Hx Hy. arctan2_region. Qed.

Lemma arctan2_up (y : R) : 0 < y -> arctan2 y 0 = PI / 2.
Proof. intros Hy. arctan2_region. Qed.

Lemma arctan2_down (y : R) : y < 0 -> arctan2 y 0 = - (PI / 2).
Proof. intros Hy. arctan2_region. Qed.

(** *** The range of the arctangent *)

Lemma atan_pos (x : R) : 0 < x -> 0 < atan x.
Proof. intros Hx. rewrite <- atan_0. now apply atan_increasing. Qed.

Lemma atan_neg (x : R) : x < 0 -> atan x < 0.
Proof. intros Hx. rewrite <- atan_0. now apply atan_increasing. Qed.

Lemma div_neg_nonneg (y x : R) : x < 0 -> 0 <= y -> y / x <= 0.
Proof.
  intros Hx Hy. unfold Rdiv.
  assert (/ x < 0) by now apply Rinv_lt_0_compat. nra.
Qed.

Lemma div_neg_neg (y x : R) : x < 0 -> y < 0 -> 0 < y / x.
Proof.
  intros Hx Hy. unfold Rdiv.
  assert (/ x < 0) by now apply Rinv_lt_0_compat. nra.
Qed.

(** The four-quadrant arctangent takes its values in (-pi, pi]. *)
Lemma arctan2_range (y x : R) : - PI < arctan2 y x <= PI.
Proof.
  pose proof PI_RGT_0 as Hpi. pose proof (atan_bound (y / x)) as Hb.
  destruct (Rtotal_order x 0) as [Hx|[->|Hx]].
  - destruct (Rle_dec 0 y) as [Hy|Hy].
    + rewrite arctan2_upper_left by assumption.
      assert (atan (y / x) <= 0).
      { destruct (div_neg_nonneg Hx Hy) as [Hlt|Heq].
        - left. now apply atan_neg.
        - rewrite Heq, atan_0. lra. }
      lra.
    + rewrite arctan2_lower_left by lra.
      assert (0 < atan (y / x)) by (apply atan_pos, div_neg_neg; lra).
      lra.
  - arctan2_region; lra.
  - rewrite arctan2_right by assumption. lra.
Qed.

(** Over exact arithmetic the angle of a zero product is 0. *)
Lemma np_angle_origin : np_angle C0 = 0.
Proof. unfold np_angle, C0; cbn [real imag]. arctan2_region. Qed.

End IdealFacts.

(** ** The manual phase-wrapping loop *)

Module UnwrapFacts.
Import Ideal IdealFacts.
Local Open Scope R_scope.

Lemma set_item_middle (pre rest : list R) (old v : R) :
  set_item (pre ++ old :: rest) (length pre) v = Ok (pre ++ v :: rest).
Proof.
  induction pre as [|x pre IH]; [reflexivity|].
  cbn [app length set_item]. now rewrite IH.
Qed.

(** After the loop has handled a prefix, that prefix is wrapped and the
    rest of the array still holds the zeros of [np.zeros]. *)
Lemma unwrap_loop (diffs pre : list R) :
  fold_left unwrap_step
            (combine (seq (length pre) (length diffs)) diffs)
            (Ok (pre ++ repeat 0 (length diffs)))
  = Ok (pre ++ map wrap diffs).
Proof.
  revert pre. induction diffs as [|d t IH]; intros pre; [reflexivity|].
  cbn [length seq combine fold_left repeat map].
  unfold unwrap_step at 2. cbn [bind fst snd].
  rewrite set_item_middle.
  replace (pre ++ wrap d :: repeat 0 (length t))
    with ((pre ++ [wrap d]) ++ repeat 0 (length t))
    by (now rewrite <- app_assoc).
  replace (S (length pre)) with (length (pre ++ [wrap d]))
    by (rewrite length_app; cbn; lia).
  rewrite IH. now rewrite <- app_assoc.
Qed.

(** The loop is the elementwise map of [wrap]; no store is out of range. *)
Lemma unwrap_map (diffs : list R) : unwrap diffs = Ok (map wrap diffs).
Proof. exact (unwrap_loop diffs []). Qed.

Lemma wrap_cases (d : R) :
  (PI < d -> wrap d = d - 2 * PI) /\
  (d < - PI -> wrap d = d + 2 * PI) /\
  (- PI <= d <= PI -> wrap d = d).
Proof.
  pose proof PI_RGT_0. unfold wrap.
  destruct (Rlt_dec PI d), (Rlt_dec d (- PI)); repeat split; intros; lra.
Qed.

Lemma wrap_range (d : R) :
  - (2 * PI) < d < 2 * PI -> - PI <= wrap d <= PI.
Proof.
  pose proof PI_RGT_0. unfold wrap. intros Hd.
  destruct (Rlt_dec PI d); [lra|]. destruct (Rlt_dec d (- PI)); lra.
Qed.

Lemma np_angle_one : np_angle (mkC 1 0) = 0.
Proof.
  unfold np_angle; cbn [real imag]. rewrite arctan2_right by lra.
  replace (0 / 1) with 0 by lra. apply atan_0.
Qed.

Lemma np_angle_minus_one : np_angle (mkC (-1) 0) = PI.
Proof.
  unfold np_angle; cbn [real imag]. rewrite arctan2_upper_left by lra.
  replace (0 / -1) with 0 by lra. rewrite atan_0. ring.
Qed.

(** The samples -1 and 1 have the angles pi and 0, both in (-pi, pi]:
    their naive difference is -pi, the loop leaves it as it is, and -pi is
    not inside (-pi, pi]. *)
Lemma unwrap_keeps_minus_pi :
  naive_diffs [mkC (-1) 0; mkC 1 0] = Ok [- PI] /\
  - (2 * PI) < - PI < 2 * PI /\
  unwrap [- PI] = Ok [- PI] /\
  ~ (- PI < - PI <= PI).
Proof.
  pose proof PI_RGT_0. repeat split; try lra.
  - unfold naive_diffs, np_diff. cbn [map].
    rewrite np_angle_one, np_angle_minus_one.
    cbv [slice_from slice_to clamp_index length Z.ltb Z.compare broadcast
         Z.to_nat Z.max Z.of_nat Z.add Pos.to_nat Pos.iter_op Nat.min
         skipn firstn Nat.eqb map2 Nat.add Pos.of_succ_nat Z.pos_sub
         Pos.succ Z.opp Pos.pred_double].
    do 2 f_equal. ring.
  - rewrite unwrap_map. cbn [map]. do 2 f_equal.
    apply wrap_cases. lra.
Qed.

(** C5, as the code has it: for phase differences in (-2 pi, 2 pi) the
    loop returns a sequence of the same length in which an element above
    pi has 2 pi subtracted, an element below -pi has 2 pi added, every
    other element is unchanged, and every element lies in [-pi, pi]. *)
Theorem unwrap_into_closed_range (diffs : list R) :
  (forall d, In d diffs -> - (2 * PI) < d < 2 * PI) ->
  exists adjusted_diffs,
    unwrap diffs = Ok adjusted_diffs /\
    length adjusted_diffs = length diffs /\
    forall i, (i < length diffs)%nat ->
      let angle := nth i diffs 0 in
      let adjusted := nth i adjusted_diffs 0 in
      (PI < angle -> adjusted = angle - 2 * PI) /\
      (angle < - PI -> adjusted = angle + 2 * PI) /\
      (- PI <= angle <= PI -> adjusted = angle) /\
      - PI <= adjusted <= PI.
Proof.
  intros Hin. exists (map wrap diffs).
  split; [apply unwrap_map|]. split; [apply length_map|].
  intros i Hi angle adjusted.
  assert (E : adjusted = wrap angle).
  { unfold adjusted, angle.
    rewrite nth_indep with (d' := wrap 0) by (now rewrite length_map).
    apply map_nth. }
  rewrite E. destruct (wrap_cases angle) as (Hhi & Hlo & Hmid).
  repeat split; try assumption; apply wrap_range, Hin, nth_In, Hi.
Qed.

Lemma unwrap_into_closed_range_witness :
  exists adjusted_diffs,
    unwrap [3 * PI / 2; - PI; PI / 3] = Ok adjusted_diffs /\
    length adjusted_diffs = 3%nat /\
    nth 0 adjusted_diffs 0 = 3 * PI / 2 - 2 * PI.
Proof.
  pose proof PI_RGT_0 as Hpi.
  destruct (@unwrap_into_closed_range [3 * PI / 2; - PI; PI / 3])
    as (adjusted & Hu & Hlen & Hnth).
  - cbn [In]. intros d [<-|[<-|[<-|[]]]]; lra.
  - exists adjusted. split; [exact Hu|]. split; [exact Hlen|].
    apply (Hnth 0%nat); [cbn; lia|]. cbn [nth]. lra.
Defined.

End UnwrapFacts.

(** ** The naive path against the discriminator *)

Module EquivalenceFacts.
Import Ideal IdealFacts.
Local Open Scope R_scope.

(** *** Shifts of sine, cosine and tangent *)

Lemma sin_sub_PI (x : R) : sin (x - PI) = - sin x.
Proof. rewrite sin_minus, cos_PI, sin_PI. ring. Qed.

Lemma cos_sub_PI (x : R) : cos (x - PI) = - cos x.
Proof. rewrite cos_minus, cos_PI, sin_PI. ring. Qed.

Lemma sin_sub_2PI (x : R) : sin (x - 2 * PI) = sin x.
Proof. rewrite sin_minus, cos_2PI, sin_2PI. ring. Qed.

Lemma cos_sub_2PI (x : R) : cos (x - 2 * PI) = cos x.
Proof. rewrite cos_minus, cos_2PI, sin_2PI. ring. Qed.

Lemma sin_add_2PI (x : R) : sin (x + 2 * PI) = sin x.
Proof. rewrite sin_plus, cos_2PI, sin_2PI. ring. Qed.

Lemma cos_add_2PI (x : R) : cos (x + 2 * PI) = cos x.
Proof. rewrite cos_plus, cos_2PI, sin_2PI. ring. Qed.

Lemma ratio_tan (rho theta : R) :
  0 < rho -> cos theta <> 0 ->
  rho * sin theta / (rho * cos theta) = tan theta.
Proof. intros Hr Hc. unfold tan. field. split; lra. Qed.

Lemma tan_add_PI (x : R) : cos x <> 0 -> tan (x + PI) = tan x.
Proof. intros Hc. unfold tan. rewrite neg_sin, neg_cos. now field. Qed.

Lemma tan_sub_PI (x : R) : cos x <> 0 -> tan (x - PI) = tan x.
Proof. intros Hc. unfold tan. rewrite sin_sub_PI, cos_sub_PI. now field. Qed.

(** *** Polar form *)

(** The angle of the point at distance [rho] in direction [theta] is
    [theta], for [theta] in (-pi, pi]. *)
Lemma arctan2_polar (rho theta : R) :
  0 < rho -> - PI < theta <= PI ->
  arctan2 (rho * sin theta) (rho * cos theta) = theta.
Proof.
  intros Hr [Hlo Hhi]. pose proof PI_RGT_0 as Hpi.
  destruct (Rtotal_order theta (- (PI / 2))) as [Hlt|[Heq|Hgt]].
  - (* third quadrant *)
    assert (Hc : cos theta < 0).
    { rewrite <- cos_neg. apply cos_lt_0; lra. }
    assert (Hs : sin theta < 0).
    { assert (0 < sin (- theta)) by (apply sin_gt_0; lra).
      rewrite sin_neg in *. lra. }
    rewrite arctan2_lower_left by nra.
    rewrite ratio_tan by lra.
    rewrite <- tan_add_PI by lra.
    rewrite atan_tan by lra. ring.
  - subst theta. rewrite cos_neg, sin_neg, cos_PI2, sin_PI2.
    replace (rho * 0) with 0 by ring.
    apply arctan2_down. lra.
  - destruct (Rtotal_order theta (PI / 2)) as [Hlt|[Heq|Hgt']].
    + (* right half plane *)
      assert (Hc : 0 < cos theta) by (apply cos_gt_0; lra).
      rewrite arctan2_right by nra.
      rewrite ratio_tan by lra.
      apply atan_tan. lra.
    + subst theta. rewrite cos_PI2, sin_PI2.
      replace (rho * 0) with 0 by ring.
      apply arctan2_up. lra.
    + (* second quadrant, negative real axis included *)
      assert (Hc : cos theta < 0) by (apply cos_lt_0; lra).
      assert (Hs : 0 <= sin theta) by (apply sin_ge_0; lra).
      rewrite arctan2_upper_left by nra.
      rewrite ratio_tan by lra.
      rewrite <- tan_sub_PI by lra.
      rewrite atan_tan by lra. ring.
Qed.

Lemma sin_of_atan (x : R) : sin (atan x) = x * cos (atan x).
Proof.
  assert (Hc : 0 < cos (atan x)).
  { pose proof (atan_bound x). apply cos_gt_0; lra. }
  rewrite <- (tan_atan x) at 2. unfold tan. field. lra.
Qed.

(** Every point but the origin lies at a positive distance in the
    direction of its angle. *)
Lemma polar_form (x y : R) :
  x <> 0 \/ y <> 0 ->
  exists rho, 0 < rho /\
    x = rho * cos (arctan2 y x) /\ y = rho * sin (arctan2 y x).
Proof.
  intros Hxy. pose proof PI_RGT_0 as Hpi.
  assert (Hc : 0 < cos (atan (y / x))).
  { pose proof (atan_bound (y / x)). apply cos_gt_0; lra. }
  destruct (Rtotal_order x 0) as [Hx|[Hx|Hx]].
  - (* left half plane *)
    exists (- x / cos (atan (y / x))).
    split; [apply Rdiv_lt_0_compat; lra|].
    destruct (Rle_dec 0 y) as [Hy|Hy].
    + rewrite arctan2_upper_left by lra.
      rewrite neg_cos, neg_sin, sin_of_atan. split; field; lra.
    + rewrite arctan2_lower_left by lra.
      rewrite cos_sub_PI, sin_sub_PI, sin_of_atan. split; field; lra.
  - subst x. destruct Hxy as [Hx|Hy]; [lra|].
    destruct (Rtotal_order y 0) as [Hy'|[Hy'|Hy']]; [|lra|].
    + exists (- y). rewrite arctan2_down by lra.
      rewrite cos_neg, sin_neg, cos_PI2, sin_PI2.
      repeat split; lra.
    + exists y. rewrite arctan2_up by lra.
      rewrite cos_PI2, sin_PI2. repeat split; lra.
  - exists (x / cos (atan (y / x))).
    split; [apply Rdiv_lt_0_compat; lra|].
    rewrite arctan2_right by lra.
    rewrite sin_of_atan. split; field; lra.
Qed.

Lemma nonzero_parts (z : complex) : z <> C0 -> real z <> 0 \/ imag z <> 0.
Proof.
  intros Hz. destruct z as [x y]; cbn [real imag].
  destruct (Req_dec x 0) as [->|Hx]; [|now left].
  destruct (Req_dec y 0) as [->|Hy]; [|now right].
  now contradiction Hz.
Qed.

(** *** One pair of samples *)

(** The angle of [w * conj z] is the difference of the two angles brought
    back into (-pi, pi]. *)
Lemma angle_of_rotated (z w : complex) :
  z <> C0 -> w <> C0 ->
  let diff := np_angle w - np_angle z in
  let delta := np_angle (Cmul w (Cconj z)) in
  (PI < diff -> delta = diff - 2 * PI) /\
  (diff <= - PI -> delta = diff + 2 * PI) /\
  (- PI < diff <= PI -> delta = diff).
Proof.
  intros Hz Hw diff delta. pose proof PI_RGT_0 as Hpi.
  destruct (polar_form (nonzero_parts Hz)) as (r1 & Hr1 & Hzx & Hzy).
  destruct (polar_form (nonzero_parts Hw)) as (r2 & Hr2 & Hwx & Hwy).
  pose proof (arctan2_range (imag z) (real z)) as Ha.
  pose proof (arctan2_range (imag w) (real w)) as Hb.
  fold (np_angle z) in Hzx, Hzy, Ha. fold (np_angle w) in Hwx, Hwy, Hb.
  subst delta.
  assert (Hd : - (2 * PI) < diff < 2 * PI) by (unfold diff; lra).
  assert (Hre : real (Cmul w (Cconj z)) = r1 * r2 * cos diff).
  { unfold diff, Cmul, Cconj; cbn [real imag]. rewrite cos_minus.
    clear diff Hd. set (a := np_angle z) in *. set (b := np_angle w) in *.
    clearbody a b. rewrite Hzx, Hzy, Hwx, Hwy. ring. }
  assert (Him : imag (Cmul w (Cconj z)) = r1 * r2 * sin diff).
  { unfold diff, Cmul, Cconj; cbn [real imag]. rewrite sin_minus.
    clear diff Hd Hre. set (a := np_angle z) in *. set (b := np_angle w) in *.
    clearbody a b. rewrite Hzx, Hzy, Hwx, Hwy. ring. }
  assert (Hr : 0 < r1 * r2) by nra.
  assert (E : np_angle (Cmul w (Cconj z))
              = arctan2 (r1 * r2 * sin diff) (r1 * r2 * cos diff))
    by (unfold np_angle at 1; now rewrite Hre, Him).
  rewrite E. clearbody diff.
  split; [|split]; intros Hcase.
  - rewrite <- (sin_sub_2PI diff), <- (cos_sub_2PI diff).
    apply arctan2_polar; lra.
  - rewrite <- (sin_add_2PI diff), <- (cos_add_2PI diff).
    apply arctan2_polar; lra.
  - apply arctan2_polar; lra.
Qed.

(** *** Whole sequences *)

Lemma np_diff_pairwise (a : list R) :
  np_diff a = Ok (pairwise (fun earlier later => later - earlier) a).
Proof.
  unfold np_diff, slice_to. rewrite slice_from_1.
  destruct a as [|x t]; [reflexivity|].
  replace (clamp_index (length (x :: t)) (-1)) with (length t)
    by (unfold clamp_index; cbn [length Z.ltb Z.compare]; lia).
  cbn [tl]. rewrite broadcast_same_length.
  - now rewrite map2_shifted.
  - rewrite length_firstn. cbn [length]. lia.
Qed.

Lemma pairwise_map {A B C : Type} (f : A -> B) (g : B -> B -> C) (a : list A) :
  pairwise g (map f a) = pairwise (fun x y => g (f x) (f y)) a.
Proof.
  induction a as [|x [|y t] IH]; try reflexivity.
  change (pairwise g (map f (x :: y :: t)))
    with (g (f x) (f y) :: pairwise g (map f (y :: t))).
  now rewrite IH.
Qed.

Lemma naive_diffs_pairwise (s : list complex) :
  naive_diffs s
  = Ok (pairwise (fun earlier later => np_angle later - np_angle earlier) s).
Proof. unfold naive_diffs. now rewrite np_diff_pairwise, pairwise_map. Qed.

Lemma np_angle_diagonal : np_angle (mkC 1 1) = PI / 4.
Proof.
  unfold np_angle; cbn [real imag]. rewrite arctan2_right by lra.
  replace (1 / 1) with 1 by lra. apply atan_1.
Qed.

Lemma np_angle_antidiagonal : np_angle (mkC (-1) (-1)) = - (3 * PI / 4).
Proof.
  unfold np_angle; cbn [real imag]. rewrite arctan2_lower_left by lra.
  replace (-1 / -1) with 1 by lra. rewrite atan_1. lra.
Qed.

Lemma np_angle_negative_axis : np_angle (mkC (-2) 0) = PI.
Proof.
  unfold np_angle; cbn [real imag]. rewrite arctan2_upper_left by lra.
  replace (0 / -2) with 0 by lra. rewrite atan_0. ring.
Qed.

End EquivalenceFacts.

(** ** The discriminator and the naive path with signed zeros *)

Module SignedFacts.
Import Ideal IdealFacts UnwrapFacts EquivalenceFacts Signed.
Local Open Scope R_scope.

(** Decide every comparison of reals in the goal. *)
Ltac decide_reals :=
  repeat match goal with
         | |- context [Rlt_dec ?a ?b] => destruct (Rlt_dec a b); try lra
         | |- context [Req_dec_T ?a ?b] => destruct (Req_dec_T a b); try lra
         end.

Lemma signbit_negative (x : float64) : value x < 0 -> signbit x = true.
Proof. intros Hx. unfold signbit. decide_reals; reflexivity. Qed.

Lemma signbit_positive (x : float64) : 0 < value x -> signbit x = false.
Proof. intros Hx. unfold signbit. decide_reals; reflexivity. Qed.

(** *** The angle *)

(** With signed zeros the arctangent takes its values in [-pi, pi]. *)
Lemma arctan2_bounds (y x : float64) : - PI <= arctan2 y x <= PI.
Proof.
  pose proof PI_RGT_0 as Hpi. unfold arctan2.
  destruct (Req_dec_T (value y) 0).
  - destruct (signbit x), (signbit y); lra.
  - pose proof (arctan2_range (value y) (value x)). lra.
Qed.

(** It returns -pi only for a negative zero [y] and a negative or -0
    [x]. *)
Lemma arctan2_minus_pi (y x : float64) :
  arctan2 y x = - PI ->
  value y = 0 /\ signbit y = true /\ signbit x = true.
Proof.
  pose proof PI_RGT_0 as Hpi. unfold arctan2.
  destruct (Req_dec_T (value y) 0) as [Hy|Hy].
  - destruct (signbit x), (signbit y); intros E; try lra; now repeat split.
  - pose proof (arctan2_range (value y) (value x)). intros E. lra.
Qed.

Lemma arctan2_at_minus_pi (y x : float64) :
  value y = 0 -> signbit y = true -> signbit x = true -> arctan2 y x = - PI.
Proof.
  intros Hy Sy Sx. unfold arctan2. rewrite Sy, Sx.
  now destruct (Req_dec_T (value y) 0).
Qed.

(** Away from the origin the angle is the one exact arithmetic gives,
    but for the negative real axis reached with a negative zero, where
    it is -pi in place of pi. *)
Lemma np_angle_exact (z : complex128) :
  exact z <> C0 ->
  np_angle z = Ideal.np_angle (exact z) \/
  (np_angle z = - PI /\ Ideal.np_angle (exact z) = PI).
Proof.
  intros Hz. apply nonzero_parts in Hz. cbn [exact real imag] in Hz.
  unfold np_angle, Ideal.np_angle, arctan2, exact; cbn [real imag].
  destruct (Req_dec_T (value (im z)) 0) as [Hy|Hy]; [|now left].
  rewrite Hy. destruct Hz as [Hx|]; [|contradiction].
  destruct (Rtotal_order (value (re z)) 0) as [Hneg|[|Hpos]]; [| contradiction |].
  - rewrite (signbit_negative _ Hneg), arctan2_upper_left by lra.
    replace (0 / value (re z)) with 0 by (field; lra). rewrite atan_0.
    destruct (signbit (im z)); [right; split; [reflexivity|ring]|left; ring].
  - rewrite (signbit_positive _ Hpos), arctan2_right by assumption.
    replace (0 / value (re z)) with 0 by (field; lra). rewrite atan_0.
    now left.
Qed.

Lemma exact_multiply (a b : complex128) :
  exact (multiply a b) = Cmul (exact a) (exact b).
Proof. reflexivity. Qed.

Lemma exact_conjugate (a : complex128) : exact (conjugate a) = Cconj (exact a).
Proof. reflexivity. Qed.

(** Every sample but a zero lies at a positive distance in the direction
    of its angle. *)
Lemma polar_signed (z : complex128) :
  exact z <> C0 ->
  exists rho, 0 < rho /\
    value (re z) = rho * cos (np_angle z) /\
    value (im z) = rho * sin (np_angle z).
Proof.
  intros Hz.
  destruct (polar_form (nonzero_parts Hz)) as (rho & Hrho & Hx & Hy).
  cbn [exact real imag] in Hx, Hy.
  exists rho. split; [assumption|].
  destruct (np_angle_exact Hz) as [E|[E E']].
  - rewrite E. now split.
  - unfold Ideal.np_angle in E'. cbn [exact real imag] in E'.
    rewrite E' in Hx, Hy. rewrite E, cos_neg, sin_neg.
    rewrite sin_PI in *. split; [assumption|lra].
Qed.

(** The exact angle of the point at distance [rho] in direction [d], for
    [d] a difference of two angles. *)
Lemma direction_angle (rho d : R) :
  0 < rho -> - (2 * PI) <= d <= 2 * PI ->
  (PI < d -> Ideal.arctan2 (rho * sin d) (rho * cos d) = d - 2 * PI) /\
  (d <= - PI -> Ideal.arctan2 (rho * sin d) (rho * cos d) = d + 2 * PI) /\
  (- PI < d <= PI -> Ideal.arctan2 (rho * sin d) (rho * cos d) = d).
Proof.
  intros Hrho Hd. pose proof PI_RGT_0 as Hpi. repeat split; intros Hcase.
  - rewrite <- (sin_sub_2PI d), <- (cos_sub_2PI d). apply arctan2_polar; lra.
  - rewrite <- (sin_add_2PI d), <- (cos_add_2PI d). apply arctan2_polar; lra.
  - apply arctan2_polar; lra.
Qed.

(** *** One pair of samples *)

(** The discriminator's value against the difference of the two angles. *)
Lemma rotated_cases (z w : complex128) :
  exact z <> C0 -> exact w <> C0 ->
  let diff := np_angle w - np_angle z in
  let delta := np_angle (multiply w (conjugate z)) in
  - (2 * PI) <= diff <= 2 * PI /\
  (PI < diff -> delta = diff - 2 * PI) /\
  (diff < - PI -> delta = diff + 2 * PI) /\
  (- PI < diff < PI -> delta = diff) /\
  (diff = PI \/ diff = - PI -> delta = PI \/ delta = - PI).
Proof.
  intros Hz Hw diff delta. pose proof PI_RGT_0 as Hpi.
  destruct (polar_signed Hz) as (r1 & Hr1 & Hzx & Hzy).
  destruct (polar_signed Hw) as (r2 & Hr2 & Hwx & Hwy).
  pose proof (arctan2_bounds (im z) (re z)) as Ha.
  pose proof (arctan2_bounds (im w) (re w)) as Hb.
  fold (np_angle z) in Ha. fold (np_angle w) in Hb.
  assert (Hd : - (2 * PI) <= diff <= 2 * PI) by (unfold diff; lra).
  assert (Hr : 0 < r1 * r2) by nra.
  assert (Hprod : exact (multiply w (conjugate z))
                  = mkC (r1 * r2 * cos diff) (r1 * r2 * sin diff)).
  { unfold diff. rewrite cos_minus, sin_minus.
    unfold exact, multiply, conjugate, fsub, fadd, fmul, fneg;
      cbn [re im value].
    clear diff Hd delta. set (a := np_angle z) in *. set (b := np_angle w) in *.
    clearbody a b. rewrite Hzx, Hzy, Hwx, Hwy. f_equal; ring. }
  assert (Hnz : exact (multiply w (conjugate z)) <> C0).
  { rewrite Hprod. intros E. injection E as Ec Es.
    pose proof (sin2_cos2 diff) as E1. unfold Rsqr in E1.
    assert (cos diff = 0) by nra. assert (sin diff = 0) by nra. nra. }
  assert (Hideal : Ideal.np_angle (exact (multiply w (conjugate z)))
                   = Ideal.arctan2 (r1 * r2 * sin diff) (r1 * r2 * cos diff))
    by (now rewrite Hprod).
  destruct (direction_angle Hr Hd) as (Dhi & Dlo & Dmid).
  fold delta in Hnz. split; [exact Hd|].
  destruct (np_angle_exact Hnz) as [E|[E E']];
    fold delta in E; rewrite Hideal in *; clearbody diff delta.
  - split; [|split; [|split]]; intros Hcase.
    + rewrite E. now apply Dhi.
    + rewrite E. apply Dlo. lra.
    + rewrite E. apply Dmid. lra.
    + left. rewrite E. destruct Hcase as [->| ->].
      * apply Dmid. lra.
      * rewrite Dlo by lra. ring.
  - split; [|split; [|split]]; intros Hcase.
    + rewrite Dhi in E' by assumption. lra.
    + rewrite Dlo in E' by lra. lra.
    + rewrite Dmid in E' by lra. lra.
    + now right.
Qed.

(** *** Whole sequences *)

(** Unfold the arithmetic on concrete samples and decide its
    comparisons. *)
Ltac signed_eval :=
  unfold np_angle, arctan2, multiply, conjugate, sample, fsub, fadd, fmul,
    fneg, signbit;
  cbn [re im value minus_zero];
  decide_reals;
  cbn [negb xorb andb].

Lemma naive_diffs_pairwise_signed (s : list complex128) :
  naive_diffs s
  = Ok (pairwise (fun earlier later => np_angle later - np_angle earlier) s).
Proof. unfold naive_diffs. now rewrite np_diff_pairwise, pairwise_map. Qed.




Lemma np_angle_first_quadrant : np_angle (sample 1 1) = PI / 4.
Proof.
  unfold np_angle, arctan2, sample; cbn [re im value].
  destruct (Req_dec_T 1 0); [lra|]. apply np_angle_diagonal.
Qed.

Lemma np_angle_third_quadrant : np_angle (sample (-1) (-1)) = - (3 * PI / 4).
Proof.
  unfold np_angle, arctan2, sample; cbn [re im value].
  destruct (Req_dec_T (-1) 0); [lra|]. apply np_angle_antidiagonal.
Qed.


(** At a naive difference of exactly -pi the two paths can also agree:
    for -1+0j and 1+0j both give -pi. *)
Example paths_agree_at_minus_pi :
  naive_diffs [sample (-1) 0; sample 1 0] = Ok [- PI] /\
  unwrap [- PI] = Ok [- PI] /\
  demodulate [sample (-1) 0; sample 1 0] = Ok [- PI].
Proof.
  pose proof PI_RGT_0 as Hpi. split; [|split].
  - rewrite naive_diffs_pairwise_signed. cbn [pairwise]. do 2 f_equal.
    signed_eval; try lra.
  - rewrite unwrap_map. cbn [map]. do 2 f_equal. apply wrap_cases. lra.
  - rewrite demodulate_pairwise. cbn [pairwise]. do 2 f_equal.
    unfold pair_angle; cbn [c_angle c_mul c_conj signed_ops].
    signed_eval; try reflexivity.
Qed.

(** What holds at one index of the two paths. *)
Lemma paths_at_index (s : list complex128) (i : nat) :
  (forall z, In z s -> exact z <> C0) ->
  (i < length s - 1)%nat ->
  let naive := fun earlier later => np_angle later - np_angle earlier in
  let diff := nth i (pairwise naive s) 0 in
  let delta := nth i (pairwise pair_angle s) 0 in
  diff = np_angle (nth (S i) s (sample 0 0)) - np_angle (nth i s (sample 0 0)) /\
  - (2 * PI) <= diff <= 2 * PI /\
  (PI < diff -> delta = diff - 2 * PI) /\
  (diff < - PI -> delta = diff + 2 * PI) /\
  (- PI < diff < PI -> delta = diff) /\
  (diff = PI \/ diff = - PI -> delta = PI \/ delta = - PI).
Proof.
  intros Hnz Hi naive diff delta.
  set (z := nth i s (sample 0 0)). set (w := nth (S i) s (sample 0 0)).
  assert (Hz : nth_error s i = Some z) by (apply nth_error_nth'; lia).
  assert (Hw : nth_error s (S i) = Some w) by (apply nth_error_nth'; lia).
  assert (Ediff : diff = np_angle w - np_angle z).
  { apply nth_error_nth. now apply (pairwise_nth naive s i). }
  assert (Edelta : delta = np_angle (multiply w (conjugate z))).
  { apply nth_error_nth.
    change (np_angle (multiply w (conjugate z))) with (pair_angle z w).
    now apply pairwise_nth. }
  split; [exact Ediff|]. rewrite Ediff, Edelta.
  apply rotated_cases; apply Hnz; eapply nth_error_In; eassumption.
Qed.



End SignedFacts.

(** ** The discriminator at a zero product, in binary64 *)

Module Binary64Facts.
Import Binary64.

(** The angle of a complex zero follows the signs of its two zeros. *)
Lemma np_angle_zero (z : complex128) :
  is_czero z = true ->
  np_angle z =
    match classify (imag z), classify (real z) with
    | PZero, PZero => Exact zero
    | NZero, PZero => Exact neg_zero
    | PZero, _ => Exact pi
    | _, _ => Exact (- pi)%float
    end.
Proof.
  unfold is_czero, is_zero, np_angle, arctan2.
  destruct (classify (real z)), (classify (imag z)); cbn; intros E;
    try discriminate; reflexivity.
Qed.

(** The first sample is 0+0j, the second -1-1j.  [np.conj(0+0j)] is
    0-0j, so the product (-1-1j) * (0-0j) has the real part
    (-1)(0) - (-1)(-0) = -0 - 0 = -0 and the imaginary part
    (-1)(-0) + (-1)(0) = 0 + -0 = +0: it is a zero, and
    arctan2(+0, -0) is pi. *)
Lemma demodulate_zero_product_pi :
  let s := [mk128 0 0; mk128 (-1) (-1)] in
  let rotated := multiply (nth 1 s (mk128 0 0)) (conjugate (nth 0 s (mk128 0 0))) in
  is_czero rotated = true /\
  classify (real rotated) = NZero /\
  classify (imag rotated) = PZero /\
  demodulate s = Ok [Exact pi] /\
  is_zero pi = false.
Proof. cbv zeta. repeat split; reflexivity. Qed.

(** C10, as the code has it: at every output index whose pair product
    s[i+1] * conj(s[i]) is a zero, the demodulator returns, with no
    exception and never NaN, the arctan2 value of the two signed zeros:
    +0 for +0+0j, -0 for +0-0j, pi for -0+0j and -pi for -0-0j. *)
Theorem demodulate_zero_product (s : list complex128) (i : nat) :
  (S i < length s)%nat ->
  let rotated :=
    multiply (nth (S i) s (mk128 0 0)) (conjugate (nth i s (mk128 0 0))) in
  is_czero rotated = true ->
  exists deltas delta,
    demodulate s = Ok deltas /\
    nth_error deltas i = Some delta /\
    is_nan_angle delta = false /\
    (classify (real rotated) = PZero -> classify (imag rotated) = PZero ->
     delta = Exact zero) /\
    (classify (real rotated) = PZero -> classify (imag rotated) = NZero ->
     delta = Exact neg_zero) /\
    (classify (real rotated) = NZero -> classify (imag rotated) = PZero ->
     delta = Exact pi) /\
    (classify (real rotated) = NZero -> classify (imag rotated) = NZero ->
     delta = Exact (- pi)%float).
Proof.
  intros Hi rotated Hz.
  exists (pairwise pair_angle s), (np_angle rotated).
  split; [apply demodulate_pairwise|].
  split.
  { change (np_angle rotated)
      with (pair_angle (nth i s (mk128 0 0)) (nth (S i) s (mk128 0 0))).
    apply pairwise_nth; apply nth_error_nth'; lia. }
  rewrite (np_angle_zero _ Hz).
  split; [destruct (classify (imag rotated)), (classify (real rotated));
          reflexivity|].
  repeat split; intros -> ->; reflexivity.
Qed.

Lemma demodulate_zero_product_witness :
  exists deltas,
    demodulate [mk128 0 0; mk128 1 0; mk128 0 0] = Ok deltas /\
    nth_error deltas 0 = Some (Exact zero) /\
    nth_error deltas 1 = Some (Exact zero).
Proof.
  destruct (@demodulate_zero_product [mk128 0 0; mk128 1 0; mk128 0 0] 0)
    as (deltas & d0 & Hd & H0 & _ & E0 & _); [cbn; lia|reflexivity|].
  destruct (@demodulate_zero_product [mk128 0 0; mk128 1 0; mk128 0 0] 1)
    as (deltas' & d1 & Hd' & H1 & _ & E1 & _); [cbn; lia|reflexivity|].
  exists deltas. split; [exact Hd|]. split.
  - rewrite H0, E0; reflexivity.
  - rewrite Hd in Hd'. inversion Hd'. subst deltas'.
    rewrite H1, E1; reflexivity.
Defined.

End Binary64Facts.

(** * Further properties of the same code *)

(** ** [read_iq]: header, count limit and the saved capture *)

Module ReadIQMore.
Import Ideal ReadIQFacts.
Local Open Scope R_scope.

Lemma pair_up_firstn (k : nat) (data : list R) :
  pair_up (firstn (2 * k) data) = firstn k (pair_up data).
Proof.
  revert data. induction k as [|k IH]; intros data; [reflexivity|].
  replace (2 * S k)%nat with (S (S (2 * k))) by lia.
  destruct data as [|x [|y t]]; try reflexivity.
  cbn [firstn pair_up]. now rewrite IH.
Qed.

Lemma pair_up_interleave {A : Type} (f g : A -> R) (l : list A) :
  pair_up (flat_map (fun a => [f a; g a]) l) = map (fun a => mkC (f a) (g a)) l.
Proof.
  induction l as [|a l IH]; [reflexivity|].
  cbn [flat_map app pair_up map]. now rewrite IH.
Qed.

Section Reader.
Variable item : Type.
Variable itemsize : positive.
Variable decode : list Byte.byte -> item.
Variable as_float64 : item -> R.

Lemma read_items_firstn (m n : nat) (bytes : list Byte.byte) :
  (m <= n)%nat ->
  read_items itemsize decode m bytes
  = firstn m (read_items itemsize decode n bytes).
Proof.
  revert n bytes. induction m as [|m IH]; intros n bytes Hmn; [reflexivity|].
  destruct n as [|n]; [lia|].
  cbn [read_items firstn]. f_equal. apply IH. lia.
Qed.

(** X1: the bytes of the header play no part: reading a file with
    [header_bytes] set to the header's length gives what reading the
    rest of the file from its start gives, errors included. *)
Theorem read_iq_skips_header (header body : list Byte.byte) (n : Z) :
  read_iq itemsize decode as_float64 (header ++ body) n
          (Z.of_nat (length header))
  = read_iq itemsize decode as_float64 body n 0.
Proof.
  unfold read_iq, np_fromfile.
  destruct (Z.ltb_spec (Z.of_nat (length header)) 0) as [|_]; [lia|].
  cbn [Z.ltb Z.compare Z.to_nat skipn].
  rewrite Nat2Z.id, skipn_app, skipn_all, Nat.sub_diag.
  cbn [app skipn].
  replace (Z.of_nat (length (header ++ body)) - Z.of_nat (length header))%Z
    with (Z.of_nat (length body) - 0)%Z
    by (rewrite length_app; lia).
  reflexivity.
Qed.

(** X2: the count limit [n] counts scalars, not samples.  When the file
    holds at least 2k scalars after the header, reading with n = 2k gives
    exactly k samples, and they are the first k pairs of the scalars an
    unlimited read obtains. *)
Theorem read_iq_count_prefix (file : list Byte.byte) (header_bytes : Z)
    (data : list item) (k : nat) :
  np_fromfile itemsize decode file (-1) header_bytes = Ok data ->
  (2 * k <= length data)%nat ->
  exists samples,
    read_iq itemsize decode as_float64 file (Z.of_nat (2 * k)) header_bytes
    = Ok samples /\
    length samples = k /\
    samples = firstn k (pair_up (map as_float64 data)).
Proof.
  unfold read_iq, np_fromfile.
  destruct (Z.ltb_spec header_bytes 0) as [|Hoff]; [discriminate|].
  cbn [Z.ltb Z.compare].
  set (remaining := (Z.of_nat (length file) - header_bytes)%Z).
  set (bytes := skipn (Z.to_nat header_bytes) file).
  destruct (Z.ltb_spec (Z.quot remaining (Z.pos itemsize)) 0) as [|Hnum];
    [discriminate|].
  intros E Hk. injection E as <-. rewrite read_items_length in Hk.
  destruct (Z.ltb_spec (Z.of_nat (2 * k)) 0) as [|_]; [lia|].
  destruct (Z.ltb_spec (Z.of_nat (2 * k)) 0) as [|_]; [lia|].
  replace (Z.to_nat (Z.min (Z.of_nat (2 * k))
                           (Z.max 0 remaining / Z.pos itemsize)))
    with (2 * k)%nat by lia.
  cbn [bind].
  rewrite (@read_items_firstn (2 * k)
             (Z.to_nat (Z.min (Z.quot remaining (Z.pos itemsize))
                              (Z.max 0 remaining / Z.pos itemsize))))
    by assumption.
  set (all := read_items itemsize decode _ bytes) in *.
  assert (Hall : (2 * k <= length all)%nat)
    by (unfold all; now rewrite read_items_length).
  unfold view_complex128.
  rewrite whole_pairs, length_map, length_firstn, Nat.min_l by assumption.
  replace (Nat.even (2 * k)) with true
    by (symmetry; apply Nat.even_spec; now exists k).
  eexists. split; [reflexivity|].
  rewrite <- firstn_map, pair_up_firstn. split; [|reflexivity].
  rewrite length_firstn, pair_up_length, length_map.
  apply Nat.min_l. apply Nat.div_le_lower_bound; lia.
Qed.

End Reader.

Lemma read_iq_count_prefix_witness :
  exists samples,
    read_iq 1 byte_value INR sample_file 2 1 = Ok samples /\
    length samples = 1%nat.
Proof.
  destruct (@read_iq_count_prefix nat 1 byte_value INR sample_file 1
              [1; 2; 3; 4]%nat 1 eq_refl) as (samples & Hs & Hlen & _).
  - cbn. lia.
  - exists samples. split; [exact Hs|exact Hlen].
Defined.

Section RoundTrip.
Variable item : Type.
Variable itemsize : positive.
Variable decode : list Byte.byte -> item.
Variable as_float64 : item -> R.
Variable narrow : R -> item.
Variable encode : item -> list Byte.byte.

(** The writer and the reader agree on the scalar type. *)
Hypothesis encode_size : forall x, length (encode x) = Pos.to_nat itemsize.
Hypothesis decode_encode : forall x, decode (encode x) = x.

Lemma tofile_length (samples : list complex) :
  length (tofile narrow encode samples)
  = (2 * length samples * Pos.to_nat itemsize)%nat.
Proof.
  induction samples as [|z t IH]; [reflexivity|].
  cbn [tofile flat_map length] in *. fold (tofile narrow encode t).
  rewrite !length_app, !encode_size, IH. lia.
Qed.

Lemma firstn_encoded (x : item) (rest : list Byte.byte) :
  firstn (Pos.to_nat itemsize) (encode x ++ rest) = encode x.
Proof.
  rewrite <- (encode_size x), firstn_app, firstn_all, Nat.sub_diag.
  cbn [firstn]. apply app_nil_r.
Qed.

Lemma skipn_encoded (x : item) (rest : list Byte.byte) :
  skipn (Pos.to_nat itemsize) (encode x ++ rest) = rest.
Proof.
  rewrite <- (encode_size x), skipn_app, skipn_all, Nat.sub_diag.
  reflexivity.
Qed.

Lemma read_items_tofile (samples : list complex) :
  read_items itemsize decode (2 * length samples) (tofile narrow encode samples)
  = flat_map (fun z => [narrow (real z); narrow (imag z)]) samples.
Proof.
  induction samples as [|z t IH]; [reflexivity|].
  cbn [length]. replace (2 * S (length t))%nat with (S (S (2 * length t))) by lia.
  cbn [tofile flat_map]. fold (tofile narrow encode t).
  cbn [read_items app]. rewrite <- !app_assoc.
  repeat (rewrite ?firstn_encoded, ?skipn_encoded).
  rewrite !decode_encode. now rewrite IH.
Qed.

(** X3: a capture saved by [tofile] and read back by [read_iq] with the
    same scalar type, the header skipped, gives every sample back in
    order, its two parts narrowed to the file's scalar type and widened
    again to float64; the read never fails. *)
Theorem read_iq_tofile (header : list Byte.byte) (samples : list complex) :
  read_iq itemsize decode as_float64
          (header ++ tofile narrow encode samples) (-1)
          (Z.of_nat (length header))
  = Ok (map (fun z => mkC (as_float64 (narrow (real z)))
                          (as_float64 (narrow (imag z))))
            samples).
Proof.
  rewrite read_iq_skips_header. unfold read_iq, np_fromfile.
  cbn [Z.ltb Z.compare Z.to_nat skipn].
  rewrite Z.sub_0_r, tofile_length.
  assert (Hq : (Z.quot (Z.of_nat (2 * length samples * Pos.to_nat itemsize))
                       (Z.pos itemsize)
                = Z.of_nat (2 * length samples))%Z).
  { rewrite Nat2Z.inj_mul, positive_nat_Z.
    rewrite Z.quot_mul by lia. reflexivity. }
  assert (Hd : (Z.max 0 (Z.of_nat (2 * length samples * Pos.to_nat itemsize))
                / Z.pos itemsize
                = Z.of_nat (2 * length samples))%Z).
  { rewrite Z.max_r by lia. rewrite Nat2Z.inj_mul, positive_nat_Z.
    apply Z.div_mul. lia. }
  rewrite Hq, Hd.
  destruct (Z.ltb_spec (Z.of_nat (2 * length samples)) 0) as [|_]; [lia|].
  rewrite Z.min_id, Nat2Z.id, read_items_tofile. cbn [bind].
  unfold view_complex128. rewrite whole_pairs.
  rewrite flat_map_concat_map, concat_map, map_map. cbn [map].
  rewrite <- flat_map_concat_map.
  assert (Hlen : forall l : list complex,
            length (flat_map (fun z => [as_float64 (narrow (real z));
                                        as_float64 (narrow (imag z))]) l)
            = (2 * length l)%nat).
  { induction l as [|z t IH]; [reflexivity|].
    cbn [flat_map app length]. rewrite IH. lia. }
  rewrite Hlen.
  replace (Nat.even (2 * length samples)) with true
    by (symmetry; apply Nat.even_spec; now exists (length samples)).
  f_equal.
  apply (pair_up_interleave (fun z => as_float64 (narrow (real z)))
                            (fun z => as_float64 (narrow (imag z)))).
Qed.

End RoundTrip.

(** One-byte scalars: a value is written as the byte itself. *)
Lemma read_iq_tofile_witness :
  read_iq 1 (hd Byte.x00) (fun b => INR (Strings.Byte.to_nat b))
          ([Byte.xff] ++ tofile (fun _ => Byte.x07) (fun b => [b])
                                [mkC 1 2; mkC 3 4])
          (-1) 1
  = Ok (map (fun z : complex => mkC (INR 7) (INR 7)) [mkC 1 2; mkC 3 4]).
Proof.
  apply (@read_iq_tofile Byte.byte 1 (hd Byte.x00)
           (fun b => INR (Strings.Byte.to_nat b)) (fun _ => Byte.x07)
           (fun b => [b]) (fun _ => eq_refl) (fun _ => eq_refl)
           [Byte.xff] [mkC 1 2; mkC 3 4]).
Defined.

End ReadIQMore.

(** ** The mixer: magnitude and successive shifts *)

Module MixerMore.
Import Ideal MixerFacts.
Local Open Scope R_scope.

Lemma mix_map2 (samples : list complex) (sample_rate f2 : R) :
  mix samples sample_rate f2
  = Ok (map2 Cmul samples (mixing_signal (length samples) sample_rate f2)).
Proof.
  unfold mix. apply broadcast_same_length. now rewrite mixing_signal_length.
Qed.

Lemma mixing_signal_phasors (n : nat) (sample_rate f2 : R) :
  mixing_signal n sample_rate f2
  = map (fun i => mkC (cos (2 * PI * f2 * (INR i / sample_rate)))
                      (sin (2 * PI * f2 * (INR i / sample_rate))))
        (seq 0 n).
Proof.
  unfold mixing_signal, time_steps. rewrite map_map.
  apply map_ext. intros i. apply phasor.
Qed.

(** A unit phasor does not change the magnitude. *)
Lemma rotation_keeps_magnitude (s : complex) (theta : R) :
  np_absolute (Cmul s (mkC (cos theta) (sin theta))) = np_absolute s.
Proof.
  unfold np_absolute, Cmul; cbn [real imag]. f_equal.
  pose proof (sin2_cos2 theta) as E. unfold Rsqr in E.
  set (c := cos theta) in *. set (d := sin theta) in *.
  transitivity ((real s * real s + imag s * imag s) * (d * d + c * c));
    [ring|rewrite E; ring].
Qed.

Lemma map_map2_invariant {A : Type} (h : complex -> A) (g : nat -> complex)
    (samples : list complex) :
  (forall s i, h (Cmul s (g i)) = h s) ->
  forall k,
    map h (map2 Cmul samples (map g (seq k (length samples)))) = map h samples.
Proof.
  intros Hh. induction samples as [|s t IH]; intros k; [reflexivity|].
  cbn [length seq map map2]. now rewrite Hh, IH.
Qed.

(** X4: mixing changes no sample's magnitude, whatever the shift: the
    magnitudes of the shifted sequence are those of the input, sample by
    sample. *)
Theorem mix_preserves_magnitude (samples : list complex) (sample_rate f : R) :
  0 < sample_rate ->
  exists shifted,
    mix samples sample_rate f = Ok shifted /\
    map np_absolute shifted = map np_absolute samples.
Proof.
  intros _. rewrite mix_map2, mixing_signal_phasors.
  eexists. split; [reflexivity|].
  apply map_map2_invariant. intros s i. apply rotation_keeps_magnitude.
Qed.

Lemma mix_preserves_magnitude_witness :
  exists shifted,
    mix [mkC 3 4; mkC 0 1] 2048000 300000 = Ok shifted /\
    map np_absolute shifted = map np_absolute [mkC 3 4; mkC 0 1].
Proof. apply mix_preserves_magnitude. lra. Defined.

Lemma Cmul_assoc (a b c : complex) : Cmul (Cmul a b) c = Cmul a (Cmul b c).
Proof. apply complex_eq; unfold Cmul; cbn [real imag]; ring. Qed.

(** Two rotations in a row are the rotation by the sum of the angles. *)
Lemma phasor_product (f1 f2 ti : R) :
  Cmul (mkC (cos (2 * PI * f1 * ti)) (sin (2 * PI * f1 * ti)))
       (mkC (cos (2 * PI * f2 * ti)) (sin (2 * PI * f2 * ti)))
  = mkC (cos (2 * PI * (f1 + f2) * ti)) (sin (2 * PI * (f1 + f2) * ti)).
Proof.
  replace (2 * PI * (f1 + f2) * ti)
    with (2 * PI * f1 * ti + 2 * PI * f2 * ti) by ring.
  rewrite cos_plus, sin_plus.
  apply complex_eq; unfold Cmul; cbn [real imag]; ring.
Qed.

Lemma map2_twice (g1 g2 g12 : nat -> complex) (samples : list complex) :
  (forall s i, Cmul (Cmul s (g1 i)) (g2 i) = Cmul s (g12 i)) ->
  forall k,
    map2 Cmul (map2 Cmul samples (map g1 (seq k (length samples))))
              (map g2 (seq k (length samples)))
    = map2 Cmul samples (map g12 (seq k (length samples))).
Proof.
  intros Hg. induction samples as [|s t IH]; intros k; [reflexivity|].
  cbn [length seq map map2]. now rewrite Hg, IH.
Qed.

(** X5: shifts add up: mixing by f1 and then mixing the result by f2 is
    mixing once by f1 + f2. *)
Theorem mix_shifts_add (samples : list complex) (sample_rate f1 f2 : R) :
  0 < sample_rate ->
  exists shifted,
    mix samples sample_rate f1 = Ok shifted /\
    mix shifted sample_rate f2 = mix samples sample_rate (f1 + f2).
Proof.
  intros _. rewrite mix_map2. eexists. split; [reflexivity|].
  rewrite !mix_map2, map2_length by (now rewrite mixing_signal_length).
  rewrite !mixing_signal_phasors. f_equal.
  apply map2_twice. intros s i.
  now rewrite Cmul_assoc, phasor_product.
Qed.

Lemma mix_shifts_add_witness :
  exists shifted,
    mix [mkC 1 0; mkC 0 1] 2048000 (- 500000) = Ok shifted /\
    mix shifted 2048000 300000
    = mix [mkC 1 0; mkC 0 1] 2048000 (- 500000 + 300000).
Proof. apply mix_shifts_add. lra. Defined.

End MixerMore.

(** ** The kernel's shape and two elementary filters *)

Module KernelMore.
Import Ideal IdealFacts EquivalenceFacts LowpassFacts FilterFacts.
Local Open Scope R_scope.

Lemma np_sinc_even (x : R) : np_sinc (- x) = np_sinc x.
Proof.
  pose proof PI_RGT_0 as Hpi. unfold np_sinc.
  destruct (Req_dec_T x 0) as [->|Hx].
  - destruct (Req_dec_T (- 0) 0) as [_|Hne]; [reflexivity|lra].
  - destruct (Req_dec_T (- x) 0) as [E|_]; [lra|].
    replace (PI * - x) with (- (PI * x)) by ring.
    rewrite sin_neg. field. split; lra.
Qed.

Lemma cos_mirror_2PI (x : R) : cos (2 * PI - x) = cos x.
Proof.
  replace (2 * PI - x) with (- (x - 2 * PI)) by ring.
  now rewrite cos_neg, cos_sub_2PI.
Qed.

Lemma cos_mirror_4PI (x : R) : cos (4 * PI - x) = cos x.
Proof.
  replace (4 * PI - x) with (- (x - 2 * PI - 2 * PI)) by ring.
  now rewrite cos_neg, !cos_sub_2PI.
Qed.

Lemma INR_taps : INR taps = 200.
Proof. rewrite taps_200, INR_IZR_INZ. reflexivity. Qed.

(** Tap [n] of the kernel the cell builds. *)
Lemma kernel_tap (frac : R) (n : nat) :
  (n < taps)%nat ->
  nth n (map2 Rmult
           (map (fun n => np_sinc (2 * frac * (INR n - (INR taps - 1) / 2)))
                (seq 0 taps))
           (np_blackman taps)) 0
  = np_sinc (2 * frac * (INR n - 199 / 2))
    * (42 / 100 - 5 / 10 * cos (2 * PI * INR n / 199)
       + 8 / 100 * cos (4 * PI * INR n / 199)).
Proof.
  intros Hn. apply nth_error_nth.
  replace 199 with (INR taps - 1) by (rewrite INR_taps; lra).
  rewrite <- np_blackman_nth by (rewrite ?taps_200 in *; lia).
  apply map2_nth.
  - rewrite nth_error_map, nth_error_nth' with (d := 0%nat)
      by (now rewrite length_seq).
    rewrite seq_nth by assumption. reflexivity.
  - apply nth_error_nth'. now rewrite np_blackman_length.
Qed.

(** X6: the kernel is symmetric about its middle, h[n] = h[N-1-n], for
    every cutoff: the filter delays all frequencies alike. *)
Theorem lowpass_kernel_symmetric (cutoff sample_rate : R) :
  sample_rate <> 0 ->
  exists h,
    design_lowpass cutoff sample_rate = Ok h /\
    length h = taps /\
    forall n, (n < taps)%nat -> nth n h 0 = nth (taps - 1 - n) h 0.
Proof.
  intros Hsr. rewrite design_lowpass_kernel by assumption.
  eexists. split; [reflexivity|]. split.
  { rewrite map2_length; now rewrite length_map, length_seq, ?np_blackman_length. }
  intros n Hn.
  assert (Hm : (taps - 1 - n < taps)%nat) by lia.
  rewrite (kernel_tap _ Hn), (kernel_tap _ Hm).
  assert (E : INR (taps - 1 - n) = 199 - INR n).
  { rewrite !minus_INR by (rewrite ?taps_200 in *; lia).
    rewrite INR_taps. cbn [INR]. ring. }
  rewrite E. f_equal.
  - replace (2 * (cutoff / sample_rate) * (199 - INR n - 199 / 2))
      with (- (2 * (cutoff / sample_rate) * (INR n - 199 / 2)))
      by (field; assumption).
    now rewrite np_sinc_even.
  - replace (2 * PI * (199 - INR n) / 199)
      with (2 * PI - 2 * PI * INR n / 199) by field.
    replace (4 * PI * (199 - INR n) / 199)
      with (4 * PI - 4 * PI * INR n / 199) by field.
    now rewrite cos_mirror_2PI, cos_mirror_4PI.
Qed.

Lemma lowpass_kernel_symmetric_witness :
  exists h,
    design_lowpass 150000 2048000 = Ok h /\
    nth 0 h 0 = nth (taps - 1 - 0) h 0.
Proof.
  destruct (@lowpass_kernel_symmetric 150000 2048000)
    as (h & Hh & _ & Hsym); [lra|].
  exists h. split; [exact Hh|].
  apply (Hsym 0%nat). rewrite taps_200. lia.
Defined.

Lemma Cmul_1_l (z : complex) : Cmul (mkC 1 0) z = z.
Proof. destruct z. unfold Cmul; cbn [real imag]. f_equal; ring. Qed.

(** X7: the kernel is the filter's impulse response: filtering the
    one-sample sequence [1+0j] returns the kernel itself. *)
Theorem impulse_response (h : list R) :
  h <> [] -> apply_filter [mkC 1 0] h = Ok (map of_real h).
Proof.
  intros Hh. unfold apply_filter, np_convolve.
  destruct h as [|h0 ht]; [easy|]. cbn [map].
  set (v := of_real h0 :: map of_real ht).
  replace (length [mkC 1 0] + length v - 1)%nat with (length v)
    by (cbn [length]; lia).
  f_equal.
  apply nth_ext with (d := C0) (d' := C0);
    [now rewrite length_map, length_seq|].
  intros n Hn. rewrite length_map, length_seq in Hn.
  rewrite nth_indep with (d' := conv_at [mkC 1 0] v 0%nat)
    by (now rewrite length_map, length_seq).
  rewrite map_nth, seq_nth by assumption. cbn [Nat.add].
  unfold conv_at, conv_term. cbn [length seq map Csum fold_right nth].
  cbn [Nat.leb andb]. rewrite Nat.sub_0_r.
  destruct (Nat.ltb_spec n (length v)) as [_|Hge]; [|lia].
  now rewrite Cadd_0_r, Cmul_1_l.
Qed.

Lemma impulse_response_witness :
  apply_filter [mkC 1 0] [1; 3; 5] = Ok (map of_real [1; 3; 5]).
Proof. apply impulse_response. discriminate. Defined.

(** X8: a one-tap kernel [c] multiplies every sample by c and changes
    nothing else; with c = 1 the filter returns its input. *)
Theorem one_tap_kernel (shifted : list complex) (c : R) :
  shifted <> [] ->
  apply_filter shifted [c] = Ok (map (fun z => Cmul z (of_real c)) shifted).
Proof.
  intros Hs. unfold apply_filter, np_convolve. cbn [map].
  destruct shifted as [|s0 st] eqn:Es; [easy|]. rewrite <- Es.
  assert (Hlen : (length shifted + length [of_real c] - 1 = length shifted)%nat)
    by (cbn [length]; lia).
  rewrite Hlen. f_equal.
  apply nth_ext with (d := C0) (d' := Cmul C0 (of_real c));
    [now rewrite !length_map, length_seq|].
  intros n Hn. rewrite length_map, length_seq in Hn.
  rewrite nth_indep with (d' := conv_at shifted [of_real c] 0%nat)
    by (now rewrite length_map, length_seq).
  rewrite map_nth, seq_nth by assumption. cbn [Nat.add].
  rewrite (map_nth (fun z => Cmul z (of_real c))).
  unfold conv_at. rewrite (@Csum_single _ n).
  - unfold conv_term. rewrite Nat.leb_refl, Nat.sub_diag. reflexivity.
  - lia.
  - intros m Hm Hne. unfold conv_term. cbn [length].
    destruct (Nat.leb_spec m n) as [Hle|]; [|reflexivity].
    destruct (Nat.ltb_spec (n - m) 1); [lia|reflexivity].
Qed.

Lemma one_tap_kernel_witness :
  apply_filter [mkC 1 2; mkC 3 4] [1]
  = Ok (map (fun z => Cmul z (of_real 1)) [mkC 1 2; mkC 3 4]).
Proof. apply one_tap_kernel. discriminate. Defined.

End KernelMore.

(** ** Decimating twice *)

Section DecimationMore.
Context {C : Type}.
Implicit Types input : list C.

Lemma decimate_take_every input (r : nat) :
  (1 <= r)%nat ->
  decimate input (Z.of_nat r)
  = Ok (take_every r 0 (firstn (length input - length input mod r) input)).
Proof.
  intros Hr. unfold decimate.
  rewrite truncate_to_multiple_firstn by assumption. cbn [bind].
  unfold slice_step.
  destruct (Z.eqb_spec (Z.of_nat r) 0); [lia|].
  destruct (Z.ltb_spec 0 (Z.of_nat r)); [|lia].
  now rewrite Nat2Z.id.
Qed.

Lemma decimated_nth input (r i : nat) :
  (1 <= r)%nat ->
  nth_error (take_every r 0 (firstn (length input - length input mod r) input)) i
  = if (i <? length input / r)%nat then nth_error input (i * r) else None.
Proof.
  intros Hr. rewrite take_every_nth by assumption. cbn [Nat.add].
  rewrite nth_error_firstn, <- multiple_below by assumption.
  destruct (Nat.ltb_spec i (length input / r)) as [Hi|Hi];
    destruct (Nat.ltb_spec (i * r) (length input / r * r)); try reflexivity; nia.
Qed.

Lemma decimated_length input (r : nat) :
  (1 <= r)%nat ->
  length (take_every r 0 (firstn (length input - length input mod r) input))
  = (length input / r)%nat.
Proof.
  intros Hr. apply length_by_nth_error.
  - rewrite decimated_nth, Nat.ltb_irrefl by assumption. reflexivity.
  - intros i Hi. rewrite decimated_nth by assumption.
    destruct (Nat.ltb_spec i (length input / r)); [|lia].
    apply nth_error_Some.
    pose proof (Nat.Div0.mul_div_le (length input) r). nia.
Qed.

(** X9: decimating by r1 and then decimating the result by r2 is
    decimating once by r1 * r2: same samples, same length, for every
    input length. *)
Theorem decimate_twice input (r1 r2 : nat) :
  (1 <= r1)%nat -> (1 <= r2)%nat ->
  exists downsampled,
    decimate input (Z.of_nat r1) = Ok downsampled /\
    decimate downsampled (Z.of_nat r2) = decimate input (Z.of_nat (r1 * r2)).
Proof.
  intros H1 H2. rewrite decimate_take_every by assumption.
  eexists. split; [reflexivity|].
  rewrite !decimate_take_every by nia. f_equal.
  apply nth_error_ext. intros i.
  rewrite !decimated_nth, decimated_length by nia.
  rewrite Nat.Div0.div_div.
  destruct (Nat.ltb_spec i (length input / (r1 * r2))) as [Hi|Hi];
    [|reflexivity].
  assert (Hq : (i * r2 < length input / r1)%nat).
  { rewrite <- Nat.Div0.div_div in Hi.
    pose proof (Nat.Div0.mul_div_le (length input / r1) r2). nia. }
  destruct (Nat.ltb_spec (i * r2) (length input / r1)); [|lia].
  f_equal. ring.
Qed.

End DecimationMore.

Lemma decimate_twice_witness :
  exists downsampled,
    decimate [0; 1; 2; 3; 4; 5; 6; 7; 8; 9; 10; 11; 12]%nat 2 = Ok downsampled /\
    decimate downsampled 3
    = decimate [0; 1; 2; 3; 4; 5; 6; 7; 8; 9; 10; 11; 12]%nat 6.
Proof.
  apply (@decimate_twice nat [0; 1; 2; 3; 4; 5; 6; 7; 8; 9; 10; 11; 12]%nat
           2 3); lia.
Defined.

(** ** The discriminator: tones, gain and phase offsets *)

Module DemodulatorMore.
Import Ideal IdealFacts EquivalenceFacts MixerFacts MixerMore.
Local Open Scope R_scope.

Lemma pairwise_ext {A B : Type} (g g' : A -> A -> B) (a : list A) :
  (forall x y, g x y = g' x y) -> pairwise g a = pairwise g' a.
Proof.
  intros Hg. induction a as [|x [|y t] IH]; try reflexivity.
  change (pairwise g (x :: y :: t)) with (g x y :: pairwise g (y :: t)).
  change (pairwise g' (x :: y :: t)) with (g' x y :: pairwise g' (y :: t)).
  now rewrite Hg, IH.
Qed.

(** Consecutive pairs of a sequence given by its index. *)
Lemma pairwise_constant_step {A B : Type} (g : A -> A -> B) (h : nat -> A)
    (c : B) :
  (forall i, g (h i) (h (S i)) = c) ->
  forall n k, pairwise g (map h (seq k n)) = repeat c (n - 1).
Proof.
  intros Hg. induction n as [|[|n] IH]; intros k; try reflexivity.
  change (pairwise g (map h (seq k (S (S n)))))
    with (g (h k) (h (S k)) :: pairwise g (map h (seq (S k) (S n)))).
  rewrite Hg, IH. cbn [Nat.sub repeat]. now rewrite Nat.sub_0_r.
Qed.

(** X10: a pure tone demodulates to a constant.  The complex sinusoid of
    frequency f sampled at sample_rate, with |f| within the Nyquist
    band, gives 2 pi f / sample_rate at every output. *)
Theorem demodulate_pure_tone (n : nat) (sample_rate f : R) :
  0 < sample_rate ->
  - PI < 2 * PI * f / sample_rate <= PI ->
  demodulate (mixing_signal n sample_rate f)
  = Ok (repeat (2 * PI * f / sample_rate) (n - 1)).
Proof.
  intros Hsr Hband. rewrite demodulate_pairwise, mixing_signal_phasors.
  f_equal. apply pairwise_constant_step. intros i.
  unfold pair_angle; cbn [c_angle c_mul c_conj ideal_ops].
  set (a := 2 * PI * f * (INR i / sample_rate)).
  set (b := 2 * PI * f * (INR (S i) / sample_rate)).
  assert (Hstep : b - a = 2 * PI * f / sample_rate).
  { unfold a, b. rewrite S_INR. field. lra. }
  unfold np_angle, Cmul, Cconj; cbn [real imag].
  replace (cos b * - sin a + sin b * cos a) with (1 * sin (b - a))
    by (rewrite sin_minus; ring).
  replace (cos b * cos a - sin b * - sin a) with (1 * cos (b - a))
    by (rewrite cos_minus; ring).
  rewrite Hstep. apply arctan2_polar; lra.
Qed.

Lemma demodulate_pure_tone_witness :
  demodulate (mixing_signal 5 2048000 300000)
  = Ok (repeat (2 * PI * 300000 / 2048000) (5 - 1)).
Proof.
  pose proof PI_RGT_0. apply demodulate_pure_tone; [lra|split; lra].
Defined.

(** Scaling both coordinates by a positive factor keeps the angle. *)
Lemma arctan2_scale (k y x : R) :
  0 < k -> arctan2 (k * y) (k * x) = arctan2 y x.
Proof.
  intros Hk.
  assert (Hq : x <> 0 -> k * y / (k * x) = y / x) by (intros; field; lra).
  destruct (Rtotal_order x 0) as [Hx|[->|Hx]].
  - destruct (Rle_dec 0 y) as [Hy|Hy].
    + rewrite !arctan2_upper_left by nra. now rewrite Hq by lra.
    + rewrite !arctan2_lower_left by nra. now rewrite Hq by lra.
  - rewrite Rmult_0_r. destruct (Rtotal_order y 0) as [Hy|[->|Hy]].
    + rewrite !arctan2_down by nra. reflexivity.
    + now rewrite Rmult_0_r.
    + rewrite !arctan2_up by nra. reflexivity.
  - rewrite !arctan2_right by nra. now rewrite Hq by lra.
Qed.



(** X12: multiplying by the conjugate of a unit rotator subtracts its
    phase from the angle and keeps the magnitude, as long as the
    difference stays in (-pi, pi]. *)
Theorem conjugate_rotation_subtracts (s1 : complex) (phase : R) :
  s1 <> C0 ->
  - PI < np_angle s1 - phase <= PI ->
  let s4 := Cmul s1 (Cconj (rect 1 phase)) in
  np_angle s4 = np_angle s1 - phase /\
  np_absolute s4 = np_absolute s1.
Proof.
  intros Hs Hrange s4. split.
  - destruct (polar_form (nonzero_parts Hs)) as (rho & Hrho & Hx & Hy).
    fold (np_angle s1) in Hx, Hy.
    unfold s4, np_angle at 1, Cmul, Cconj, rect; cbn [real imag].
    set (a := np_angle s1) in *. clearbody a.
    rewrite Hx, Hy.
    replace (rho * cos a * - (1 * sin phase) + rho * sin a * (1 * cos phase))
      with (rho * sin (a - phase)) by (rewrite sin_minus; ring).
    replace (rho * cos a * (1 * cos phase) - rho * sin a * - (1 * sin phase))
      with (rho * cos (a - phase)) by (rewrite cos_minus; ring).
    now apply arctan2_polar.
  - unfold s4, rect, Cconj; cbn [real imag].
    replace (mkC (1 * cos phase) (- (1 * sin phase)))
      with (mkC (cos (- phase)) (sin (- phase)))
      by (rewrite cos_neg, sin_neg; f_equal; ring).
    apply rotation_keeps_magnitude.
Qed.

(** The cell's own values: s1 = 1+1j and a rotator of phase pi/6. *)
Lemma conjugate_rotation_subtracts_witness :
  np_angle (Cmul (mkC 1 1) (Cconj (rect 1 (PI / 6)))) = PI / 4 - PI / 6 /\
  np_absolute (Cmul (mkC 1 1) (Cconj (rect 1 (PI / 6)))) = np_absolute (mkC 1 1).
Proof.
  pose proof PI_RGT_0 as Hpi.
  rewrite <- np_angle_diagonal.
  apply (@conjugate_rotation_subtracts (mkC 1 1) (PI / 6)).
  - intros E. injection E. lra.
  - rewrite np_angle_diagonal. lra.
Defined.

End DemodulatorMore.

(** ** The search for the first index where the two paths part *)

Module JumpFacts.
Import Ideal IdealFacts EquivalenceFacts.
Local Open Scope R_scope.

(** What the loop has established when it stops at index [i], having
    started at index [k] of the full arrays. *)
Lemma first_jump_from_stops (diffs deltas : list R) :
  forall k i,
    first_jump_from k diffs deltas = Ok i ->
    (k <= i)%nat /\ (i - k < length diffs)%nat /\ (i - k < length deltas)%nat /\
    ~ nth (i - k) diffs 0 - nth (i - k) deltas 0 < 1e-10 /\
    forall m, (m < i - k)%nat -> nth m diffs 0 - nth m deltas 0 < 1e-10.
Proof.
  revert deltas. induction diffs as [|d diffs IH]; intros deltas k i E.
  - discriminate.
  - destruct deltas as [|p deltas]; [discriminate|]. cbn [first_jump_from] in E.
    destruct (Rlt_dec (d - p) 1e-10) as [Hlt|Hge].
    + destruct (IH _ _ _ E) as (Hk & Hd & Hp & Hstop & Hbefore).
      replace (i - k)%nat with (S (i - S k)) by lia. cbn [length nth].
      repeat split; try lia; try assumption.
      intros [|m] Hm; [exact Hlt|]. apply Hbefore. lia.
    + injection E as <-. rewrite Nat.sub_diag. cbn [length nth].
      repeat split; try lia; try assumption.
Qed.

(** The loop runs off the end when no index stops it. *)
Lemma first_jump_from_runs_off (diffs deltas : list R) :
  forall k,
    (forall m, (m < length diffs)%nat -> (m < length deltas)%nat ->
               nth m diffs 0 - nth m deltas 0 < 1e-10) ->
    first_jump_from k diffs deltas = Raise IndexError.
Proof.
  revert deltas. induction diffs as [|d diffs IH]; intros deltas k Hall.
  - reflexivity.
  - destruct deltas as [|p deltas]; [reflexivity|]. cbn [first_jump_from].
    destruct (Rlt_dec (d - p) 1e-10) as [_|Hge].
    + apply IH. intros m Hm Hm'. apply (Hall (S m)); cbn [length]; lia.
    + exfalso. apply Hge. apply (Hall 0%nat); cbn [length]; lia.
Qed.

End JumpFacts.

(** ** The two paths with signed zeros *)

Module SignedPaths.
Import Ideal IdealFacts UnwrapFacts EquivalenceFacts JumpFacts Signed SignedFacts.
Local Open Scope R_scope.

(** The loop stops no later than any index at which its condition
    fails. *)
Lemma first_jump_from_returns (diffs deltas : list R) :
  forall k m,
    (m < length diffs)%nat -> (m < length deltas)%nat ->
    ~ nth m diffs 0 - nth m deltas 0 < 1e-10 ->
    exists i, (k <= i <= k + m)%nat /\ first_jump_from k diffs deltas = Ok i.
Proof.
  revert deltas. induction diffs as [|d diffs IH]; intros deltas k m Hd Hp Hstop.
  - cbn [length] in Hd. lia.
  - destruct deltas as [|p deltas]; [cbn [length] in Hp; lia|].
    cbn [first_jump_from].
    destruct (Rlt_dec (d - p) 1e-10) as [Hlt|Hge].
    + destruct m as [|m]; [contradiction|]. cbn [length nth] in Hd, Hp, Hstop.
      destruct (IH deltas (S k) m) as (i & Hi & E); try lia; try assumption.
      exists i. split; [lia|exact E].
    + exists k. split; [lia|reflexivity].
Qed.

(** The gap between the two paths at one index: nothing or a whole
    turn. *)
Lemma gap_at_index (s : list complex128) (m : nat) :
  (forall z, In z s -> exact z <> C0) ->
  (m < length s - 1)%nat ->
  let naive := fun earlier later => np_angle later - np_angle earlier in
  let diff := nth m (pairwise naive s) 0 in
  let gap := diff - nth m (pairwise pair_angle s) 0 in
  (gap = 0 \/ gap = 2 * PI \/ gap = - (2 * PI)) /\
  (PI < diff -> gap = 2 * PI) /\
  (diff < PI -> gap <> 2 * PI).
Proof.
  intros Hnz Hm naive diff gap. pose proof PI_RGT_0 as Hpi.
  destruct (paths_at_index s Hnz Hm) as (_ & Hd & Hhi & Hlo & Hmid & Hedge).
  fold naive in Hd, Hhi, Hlo, Hmid, Hedge. fold diff in Hd, Hhi, Hlo, Hmid, Hedge.
  unfold gap. set (delta := nth m (pairwise pair_angle s) 0) in *.
  clearbody diff delta.
  destruct (Rtotal_order diff PI) as [Hlt|[Heq|Hgt]].
  - destruct (Rtotal_order diff (- PI)) as [Hlt'|[Heq'|Hgt']].
    + rewrite (Hlo Hlt'). repeat split; intros; lra.
    + destruct Hedge as [E|E]; [now right| |]; rewrite E; repeat split;
        intros; lra.
    + rewrite Hmid by lra. repeat split; intros; lra.
  - destruct Hedge as [E|E]; [now left| |]; rewrite E; repeat split;
      intros; lra.
  - rewrite (Hhi Hgt). repeat split; intros; lra.
Qed.

Lemma np_angle_second_quadrant : np_angle (sample (-1) 1) = 3 * PI / 4.
Proof.
  unfold np_angle, arctan2, sample; cbn [re im value].
  destruct (Req_dec_T 1 0); [lra|]. rewrite arctan2_upper_left by lra.
  replace (1 / -1) with (- (1 / 1)) by lra. rewrite atan_opp.
  replace (1 / 1) with 1 by lra. rewrite atan_1. lra.
Qed.



(** A gap of 2 pi at a naive difference of exactly pi: for -0-1j and
    -0+1j the angles are -pi/2 and pi/2, and the product (-0+1j) * (-0+1j)
    has the real part 0 - 1 = -1 and the imaginary part -0 + -0 = -0,
    whose angle is -pi.  The search stops there. *)
Example first_jump_at_exactly_pi :
  let s := [mkZ (mkF 0 true) (mkF (-1) false); mkZ (mkF 0 true) (mkF 1 false)] in
  naive_diffs s = Ok [PI] /\
  demodulate s = Ok [- PI] /\
  first_jump [PI] [- PI] = Ok 0%nat.
Proof.
  pose proof PI_RGT_0 as Hpi. pose proof PI2_1 as Hpi2. cbv zeta.
  split; [|split].
  - rewrite naive_diffs_pairwise_signed. cbn [pairwise]. do 2 f_equal.
    unfold np_angle, arctan2; cbn [re im value]. decide_reals.
    rewrite arctan2_up, arctan2_down by lra. lra.
  - rewrite demodulate_pairwise. cbn [pairwise]. do 2 f_equal.
    unfold pair_angle; cbn [c_angle c_mul c_conj signed_ops].
    signed_eval; try reflexivity.
  - unfold first_jump. cbn [first_jump_from].
    destruct (Rlt_dec (PI - - PI) 1e-10); [lra|reflexivity].
Qed.

Lemma wrap_closed_range (d : R) :
  - (2 * PI) <= d <= 2 * PI ->
  - PI <= wrap d <= PI /\
  (wrap d = d \/ wrap d = d - 2 * PI \/ wrap d = d + 2 * PI).
Proof.
  pose proof PI_RGT_0. unfold wrap. intros Hd.
  destruct (Rlt_dec PI d); [split; [lra|right; left; reflexivity]|].
  destruct (Rlt_dec d (- PI)); [split; [lra|right; right; reflexivity]|].
  split; [lra|left; reflexivity].
Qed.

(** X18: for every sample sequence, zeros of either sign included, the
    naive path runs without an exception: it yields len(s) - 1
    differences diffs[i] = angle(s[i+1]) - angle(s[i]), each in the
    closed interval [-2 pi, 2 pi], and the wrapping loop brings each of
    them into [-pi, pi] by adding 0, 2 pi or -2 pi. *)
Theorem naive_path_closed_ranges (s : list complex128) :
  exists diffs adjusted_diffs,
    naive_diffs s = Ok diffs /\
    unwrap diffs = Ok adjusted_diffs /\
    length diffs = (length s - 1)%nat /\
    length adjusted_diffs = (length s - 1)%nat /\
    forall i, (i < length s - 1)%nat ->
      let diff := nth i diffs 0 in
      let adjusted := nth i adjusted_diffs 0 in
      diff = np_angle (nth (S i) s (sample 0 0))
             - np_angle (nth i s (sample 0 0)) /\
      - (2 * PI) <= diff <= 2 * PI /\
      - PI <= adjusted <= PI /\
      (adjusted = diff \/ adjusted = diff - 2 * PI \/ adjusted = diff + 2 * PI).
Proof.
  set (naive := fun earlier later : complex128 =>
                  np_angle later - np_angle earlier).
  exists (pairwise naive s), (map wrap (pairwise naive s)).
  split; [apply naive_diffs_pairwise_signed|]. split; [apply unwrap_map|].
  split; [apply pairwise_length|].
  split; [now rewrite length_map, pairwise_length|].
  intros i Hi diff adjusted.
  set (z := nth i s (sample 0 0)). set (w := nth (S i) s (sample 0 0)).
  assert (Ediff : diff = np_angle w - np_angle z).
  { apply nth_error_nth. apply (pairwise_nth naive s i);
      apply nth_error_nth'; lia. }
  assert (Hd : - (2 * PI) <= diff <= 2 * PI).
  { rewrite Ediff. unfold np_angle.
    pose proof (arctan2_bounds (im z) (re z)).
    pose proof (arctan2_bounds (im w) (re w)). lra. }
  assert (Eadj : adjusted = wrap diff).
  { unfold adjusted, diff.
    rewrite nth_indep with (d' := wrap 0)
      by (rewrite length_map, pairwise_length; lia).
    apply map_nth. }
  split; [exact Ediff|]. split; [exact Hd|]. rewrite Eadj.
  now apply wrap_closed_range.
Qed.

(** Both ends of the closed interval occur: the angle of -1-0j is -pi and
    that of -1+0j is pi, so that their naive difference is a whole turn
    in either order, and the loop makes 0 of it. *)
Example naive_difference_reaches_two_pi :
  let below := mkZ (mkF (-1) false) (mkF 0 true) in
  let above := sample (-1) 0 in
  naive_diffs [below; above; below] = Ok [2 * PI; - (2 * PI)] /\
  unwrap [2 * PI; - (2 * PI)] = Ok [0; 0].
Proof.
  pose proof PI_RGT_0 as Hpi. cbv zeta. split.
  - rewrite naive_diffs_pairwise_signed. cbn [pairwise].
    do 2 f_equal; [|f_equal]; signed_eval; try lra.
  - rewrite unwrap_map. cbn [map].
    destruct (wrap_cases (2 * PI)) as (Hhi & _).
    destruct (wrap_cases (- (2 * PI))) as (_ & Hlo & _).
    rewrite Hhi, Hlo by lra. do 2 f_equal; [lra|f_equal; lra].
Qed.

End SignedPaths.

(** ** Wrapping twice *)

Module UnwrapMore.
Import Ideal UnwrapFacts.
Local Open Scope R_scope.

Lemma wrap_fixed (d : R) : - PI <= d <= PI -> wrap d = d.
Proof. apply wrap_cases. Qed.

Lemma wrap_once_enough (d : R) :
  - (3 * PI) <= d <= 3 * PI -> wrap (wrap d) = wrap d.
Proof.
  intros Hd. pose proof PI_RGT_0 as Hpi.
  destruct (wrap_cases d) as (Hhi & Hlo & Hmid).
  apply wrap_fixed.
  destruct (Rlt_dec PI d); [rewrite Hhi by assumption; lra|].
  destruct (Rlt_dec d (- PI)); [rewrite Hlo by assumption; lra|].
  rewrite Hmid; lra.
Qed.

(** X14: on differences between -3 pi and 3 pi, so on every difference
    of two angles, one pass of the loop is final: running the loop again
    on its own output changes nothing. *)
Theorem unwrap_idempotent (diffs : list R) :
  (forall d, In d diffs -> - (3 * PI) <= d <= 3 * PI) ->
  exists adjusted_diffs,
    unwrap diffs = Ok adjusted_diffs /\
    unwrap adjusted_diffs = Ok adjusted_diffs.
Proof.
  intros Hin. exists (map wrap diffs). split; [apply unwrap_map|].
  rewrite unwrap_map, map_map. f_equal.
  apply map_ext_in. intros d Hd. now apply wrap_once_enough, Hin.
Qed.

Lemma unwrap_idempotent_witness :
  exists adjusted_diffs,
    unwrap [3 * PI / 2; - PI; - (5 * PI / 2)] = Ok adjusted_diffs /\
    unwrap adjusted_diffs = Ok adjusted_diffs.
Proof.
  pose proof PI_RGT_0 as Hpi. apply unwrap_idempotent.
  cbn [In]. intros d [<-|[<-|[<-|[]]]]; lra.
Defined.

(** X15: the loop corrects by one turn only: an input more than 3 pi
    away from zero is still outside [-pi, pi] afterwards. *)
Theorem unwrap_single_turn (diffs : list R) (i : nat) :
  (i < length diffs)%nat ->
  3 * PI < Rabs (nth i diffs 0) ->
  exists adjusted_diffs,
    unwrap diffs = Ok adjusted_diffs /\
    PI < Rabs (nth i adjusted_diffs 0).
Proof.
  intros Hi Hbig. pose proof PI_RGT_0 as Hpi.
  exists (map wrap diffs). split; [apply unwrap_map|].
  rewrite nth_indep with (d' := wrap 0) by (now rewrite length_map).
  rewrite map_nth. set (d := nth i diffs 0) in *.
  destruct (wrap_cases d) as (Hhi & Hlo & _).
  unfold Rabs in Hbig. destruct (Rcase_abs d) as [Hneg|Hpos].
  - rewrite Hlo by lra. unfold Rabs. destruct (Rcase_abs (d + 2 * PI)); lra.
  - rewrite Hhi by lra. unfold Rabs. destruct (Rcase_abs (d - 2 * PI)); lra.
Qed.

Lemma unwrap_single_turn_witness :
  exists adjusted_diffs,
    unwrap [0; 4 * PI] = Ok adjusted_diffs /\
    PI < Rabs (nth 1 adjusted_diffs 0).
Proof.
  pose proof PI_RGT_0 as Hpi.
  apply (@unwrap_single_turn [0; 4 * PI] 1).
  - cbn. lia.
  - cbn [nth]. rewrite Rabs_right; lra.
Defined.

End UnwrapMore.

(** ** The whole receive chain *)

Module ChainFacts.
Import Ideal MixerFacts MixerMore LowpassFacts.
Local Open Scope R_scope.

Lemma np_convolve_nonempty (a v : list complex) :
  a <> [] -> v <> [] ->
  np_convolve a v
  = Ok (map (conv_at a v) (seq 0 (length a + length v - 1))).
Proof. intros Ha Hv. destruct a, v; try easy. Qed.

Lemma nonempty_length {A : Type} (l : list A) : (0 < length l)%nat -> l <> [].
Proof. destruct l; cbn; [lia|discriminate]. Qed.

(** X16: with a capture of L >= 1 samples and a nonzero sample rate the
    chain mix, filter, decimate, demodulate runs through without an
    exception and returns (L + 199) div 10 - 1 values: the filter adds
    its 199 trailing samples before the decimation by 10, and the
    discriminator gives one value per consecutive pair. *)
Theorem fm_receive_length (samples : list complex) (sample_rate : R) :
  samples <> [] -> sample_rate <> 0 ->
  exists deltas,
    fm_receive samples sample_rate = Ok deltas /\
    length deltas = ((length samples + 199) / 10 - 1)%nat.
Proof.
  intros Hs Hsr. unfold fm_receive.
  rewrite mix_map2. cbn [bind].
  rewrite design_lowpass_kernel by assumption. cbn [bind].
  set (shifted := map2 Cmul samples _).
  set (h := map2 Rmult _ _).
  assert (Hshifted : length shifted = length samples).
  { unfold shifted. apply map2_length. now rewrite mixing_signal_length. }
  assert (Hh : length h = 200%nat).
  { unfold h. rewrite map2_length;
      now rewrite length_map, length_seq, ?np_blackman_length. }
  assert (0 < length samples)%nat by (destruct samples; [easy|cbn; lia]).
  unfold apply_filter. rewrite np_convolve_nonempty;
    [|apply nonempty_length; lia
     |apply nonempty_length; rewrite length_map; lia].
  cbn [bind]. set (filtered := map _ (seq 0 _)).
  assert (Hfiltered : length filtered = (length samples + 199)%nat).
  { unfold filtered. rewrite !length_map, length_seq. lia. }
  change 10%Z with (Z.of_nat 10).
  rewrite decimate_take_every by lia. cbn [bind].
  rewrite demodulate_pairwise. eexists. split; [reflexivity|].
  rewrite pairwise_length, decimated_length by lia.
  now rewrite Hfiltered.
Qed.

Lemma fm_receive_length_witness :
  exists deltas,
    fm_receive [mkC 1 0; mkC 0 1; mkC (-1) 0] 2048000 = Ok deltas /\
    length deltas = ((3 + 199) / 10 - 1)%nat.
Proof.
  apply (@fm_receive_length [mkC 1 0; mkC 0 1; mkC (-1) 0] 2048000);
    [discriminate|lra].
Defined.

(** X17: the chain's two failures.  A sample rate of zero stops it at
    the filter design with ZeroDivisionError, whatever the capture; an
    empty capture with a nonzero sample rate passes the mixer and the
    filter design and fails in the convolution with ValueError. *)
Theorem fm_receive_failures (samples : list complex) :
  fm_receive samples 0 = Raise ZeroDivisionError /\
  forall sample_rate,
    sample_rate <> 0 -> fm_receive [] sample_rate = Raise ValueError.
Proof.
  split.
  - unfold fm_receive. rewrite mix_map2. cbn [bind]. unfold design_lowpass.
    destruct (Req_dec_T 0 0) as [_|Hne]; [reflexivity|contradiction].
  - intros sample_rate Hsr. unfold fm_receive. rewrite mix_map2. cbn [bind].
    rewrite design_lowpass_kernel by assumption. reflexivity.
Qed.

Lemma fm_receive_failures_witness :
  fm_receive [mkC 1 0] 0 = Raise ZeroDivisionError /\
  fm_receive [] 2048000 = Raise ValueError.
Proof.
  destruct (fm_receive_failures [mkC 1 0]) as [Hzero Hempty].
  split; [exact Hzero|]. apply Hempty. lra.
Defined.

End ChainFacts.
